(** * A shallow embedding of dqn.py (deep Q-learning agent)

    The development follows the source file top to bottom: the numeric
    interface used by the Python expressions, the bounded [deque] of
    [collections], [ReplayMemory], the parameter store shared by the online
    and target networks, the [Agent] methods and the training loop.

    Conventions.
    - Python exceptions are values of [PyErr]; a method that can raise
      returns a [Result].
    - Pseudo-random draws ([random()], [action_space.sample()],
      [random.sample]) thread an explicit generator state.
    - Tensors that hold network parameters live in a store indexed by
      locations, because [copy.deepcopy] and the in-place optimizer step
      are about sharing.  Tensor shapes are not modelled: batches are
      lists, and the per-row operations of torch are list operations. *)

From Stdlib Require Import ZArith List Bool Lia Reals Lra.
From Stdlib Require Import Floats.SpecFloat.
From Stdlib Require Import Ascii DecimalString DecimalPos DecimalZ.
From stdpp Require Import base tactics option list strings gmap.

Set Default Proof Using "Type".

(** ** Exceptions *)

Inductive PyErr : Type :=
| ValueError
| TypeError
| UnboundLocalError
| RuntimeError.

Inductive Result (A : Type) : Type :=
| Ok (a : A)
| Raise (e : PyErr).

Arguments Ok {A} a.
Arguments Raise {A} e.

#[export] Instance Result_ret : MRet Result := λ A a, Ok a.
#[export] Instance Result_bind : MBind Result := λ A B k m,
  match m with
  | Ok a => k a
  | Raise e => Raise e
  end.

(** ** Constants of the module *)

Definition BATCH_SIZE : nat := 16.
Definition TARGET_UPDATE_INTERVAL : Z := 500.
Definition CHECKPOINT_INTERVAL : Z := 5000.
(** the default of [ReplayMemory.__init__] *)
Definition DEFAULT_CAPACITY : nat := Z.to_nat 20000.

(** ** Numbers

    The expressions of [select_action] and [optimize] are written once,
    over this interface, and read twice: over the real numbers (the
    mathematical schedule) and over IEEE 754 binary64 (what the
    interpreter evaluates, including NaN). *)

Class Num (F : Type) : Type := {
  of_int : Z → F;
  fadd : F → F → F;
  fsub : F → F → F;
  fmul : F → F → F;
  fdiv : F → F → F;
  fgt : F → F → bool;
  math_exp : F → F
}.

Definition Rgtb (x y : R) : bool := if Rgt_dec x y then true else false.

#[export] Instance Real : Num R := {|
  of_int := IZR;
  fadd := Rplus;
  fsub := Rminus;
  fmul := Rmult;
  fdiv := Rdiv;
  fgt := Rgtb;
  math_exp := exp
|}.

(** [m] is the largest element of [row] *)
Definition is_max (m : R) (row : list R) : Prop :=
  m ∈ row ∧ ∀ x, x ∈ row → (x <= m)%R.

(** binary64: precision 53, maximal exponent 1024.  [math.exp] belongs to
    the C library; the instance takes it as an argument. *)
Definition prec64 : Z := 53.
Definition emax64 : Z := 1024.

Definition Binary64 (libm_exp : spec_float → spec_float) : Num spec_float := {|
  of_int := λ z, binary_normalize prec64 emax64 z 0 false;
  fadd := SFadd prec64 emax64;
  fsub := SFsub prec64 emax64;
  fmul := SFmul prec64 emax64;
  fdiv := SFdiv prec64 emax64;
  fgt := λ x y, SFltb y x;
  math_exp := libm_exp
|}.

Section Constants.
Context {F : Type} `{Num F}.

Definition EPSILON_START : F := of_int 1.
(** the literal [0.05]: the correctly rounded quotient 5/100 *)
Definition EPSILON_END : F := fdiv (of_int 5) (of_int 100).
Definition EPSILON_DECAY : F := of_int 20000.
End Constants.

(** ** [collections.deque] with [maxlen]

    [append] adds on the right and then trims on the left when the bound
    is exceeded. *)

Record deque (A : Type) : Type := Deque {
  maxlen : nat;
  items : list A
}.

Arguments Deque {A} maxlen items.
Arguments maxlen {A} d.
Arguments items {A} d.

Definition deque_new {A} (n : nat) : deque A := Deque n [].

Definition deque_append {A} (d : deque A) (x : A) : deque A :=
  let l := items d ++ [x] in
  Deque (maxlen d) (if decide (maxlen d < length l) then drop 1 l else l).

Definition len {A} (d : deque A) : nat := length (items d).

(** ** Pseudo-random numbers

    [random] is [random.random()]; [draw] is one raw integer of the
    generator, from which [randbelow] takes a value below its bound.
    [space_sample n] is [action_space.sample()] of a space of [n]
    actions. *)

Class Random (Rng F : Type) : Type := {
  random : Rng → F * Rng;
  draw : Rng → nat * Rng;
  space_sample : nat → Rng → nat * Rng
}.

Definition randbelow `{Random Rng F} (n : nat) (g : Rng) : nat * Rng :=
  let '(x, g') := draw g in (x mod n, g').

(** [random.sample(population, k)], selection from a pool: the [i]-th
    draw picks a position [j] below [n - i] of the pool, and the last live
    element is moved into the hole.  (For large populations CPython
    instead redraws an index until it is new; both return the elements of
    [k] different positions.) *)
Fixpoint pool_select `{Random Rng F} {A} (n : nat) (pool : list A) (i todo : nat)
    (g : Rng) : list A * Rng :=
  match todo with
  | 0 => ([], g)
  | S todo' =>
    let '(j, g1) := randbelow (n - i) g in
    match pool !! j, pool !! (n - i - 1) with
    | Some x, Some y =>
      let '(result, g2) := pool_select n (<[j := y]> pool) (S i) todo' g1 in
      (x :: result, g2)
    | _, _ => ([], g1)
    end
  end.

Definition random_sample `{Random Rng F} {A} (population : list A) (k : nat)
    (g : Rng) : Result (list A * Rng) :=
  let n := length population in
  if decide (k ≤ n) then Ok (pool_select n population 0 k g)
  else Raise ValueError.

(** ** ReplayMemory *)

(** The namedtuple [Transition].  A stored transition holds tensors; the
    value returned by [sample] is the same namedtuple holding one tuple
    per field. *)
Record Transition (St A R : Type) : Type := mkTransition {
  state : St;
  action : A;
  reward : R;
  next_state : St
}.

Arguments mkTransition {St A R} state action reward next_state.
Arguments state {St A R} t.
Arguments action {St A R} t.
Arguments reward {St A R} t.
Arguments next_state {St A R} t.

(** [torch.FloatTensor(x)] copies the values of [x] into a new tensor. *)
Definition FloatTensor {A} (x : A) : A := x.

Section ReplayMemory.
Context {F Rng : Type} `{Random Rng F}.
(** [NpState]: the stacked frames handed to [put]; [Action]: the
    [LongTensor] chosen by [select_action]. *)
Context {NpState Action : Type}.

Definition Stored : Type := Transition NpState Action (list F).
Definition Batch : Type :=
  Transition (list NpState) (list Action) (list (list F)).

Record ReplayMemory : Type := mkReplayMemory {
  capacity : nat;
  memory : deque Stored;
  _available : bool
}.

Definition ReplayMemory_init (capacity : nat) : ReplayMemory :=
  {| capacity := capacity;
     memory := deque_new capacity;
     _available := false |}.

Definition put (r : ReplayMemory)
    (st : NpState) (act : Action) (rew : F) (nst : NpState) : ReplayMemory :=
  let st := FloatTensor st in
  let rew := FloatTensor [rew] in
  let nst := FloatTensor nst in
  let transition : Stored :=
    {| state := st; action := act; reward := rew; next_state := nst |} in
  {| capacity := capacity r;
     memory := deque_append (memory r) transition;
     _available := _available r |}.

(** The namedtuple built from the transposed rows (zip with a starred
    argument): the four columns of the sampled rows; with no row there
    is no column and the constructor lacks its arguments. *)
Definition columns (transitions : list Stored) : Batch :=
  {| state := state <$> transitions;
     action := action <$> transitions;
     reward := reward <$> transitions;
     next_state := next_state <$> transitions |}.

Definition zip_star (transitions : list Stored) : Result Batch :=
  match transitions with
  | [] => Raise TypeError
  | _ => Ok (columns transitions)
  end.

Definition sample (r : ReplayMemory) (batch_size : nat) (g : Rng)
    : Result (Batch * Rng) :=
  '(transitions, g') ← random_sample (items (memory r)) batch_size g;
  b ← zip_star transitions;
  Ok (b, g').

Definition size (r : ReplayMemory) : nat := len (memory r).

(** returns the answer and the memory with its latch possibly set *)
Definition is_available (r : ReplayMemory) : bool * ReplayMemory :=
  if _available r then (true, r)
  else
    let r' :=
      if decide (BATCH_SIZE < len (memory r))
      then {| capacity := capacity r; memory := memory r; _available := true |}
      else r in
    (_available r', r').
End ReplayMemory.

Arguments Stored : clear implicits.
Arguments Batch : clear implicits.
Arguments ReplayMemory : clear implicits.

(** ** The parameter store

    A network object is the list of the locations of its parameter
    tensors (in the order of [parameters()]) together with [n_action].
    The running statistics of the batch-normalisation layers are left
    out: no network is ever switched to evaluation mode, so they are
    written and never read. *)

Definition loc : Type := positive.

Record DQN : Type := mkDQN {
  n_action : nat;
  parameters : list loc
}.

Section Store.
Context {T : Type} `{Inhabited T}.

Definition values (h : gmap loc T) (net : DQN) : list T :=
  (λ l, h !!! l) <$> parameters net.

(** [copy.deepcopy] of the parameters: a tensor met for the first time
    is cloned into a new location, and the memo returns that clone for
    every later reference to the same tensor. *)
Fixpoint deepcopy_params (h : gmap loc T) (memo : gmap loc loc) (ls : list loc)
    : gmap loc T * gmap loc loc * list loc :=
  match ls with
  | [] => (h, memo, [])
  | l :: ls =>
    match memo !! l with
    | Some l' =>
      let '(h', memo', ls') := deepcopy_params h memo ls in
      (h', memo', l' :: ls')
    | None =>
      let l' := fresh (dom h) in
      let '(h', memo', ls') :=
        deepcopy_params (<[l' := (h !!! l)]> h) (<[l := l']> memo) ls in
      (h', memo', l' :: ls')
    end
  end.

(** invariant of the copy: the memo sends tensors of the source, all
    older than the copy, to clones that hold the same values *)
Definition memo_ok (old : gset loc) (h : gmap loc T) (memo : gmap loc loc) : Prop :=
  ∀ l l', memo !! l = Some l' →
    l ∈ dom h ∧ l' ∈ dom h ∧ (l' ∉ old) ∧ h !!! l' = h !!! l.

Definition deepcopy (h : gmap loc T) (net : DQN) : gmap loc T * DQN :=
  let '(h', _, ls') := deepcopy_params h ∅ (parameters net) in
  (h', {| n_action := n_action net; parameters := ls' |}).

(** in-place assignment of new values to the tensors at [ls] *)
Fixpoint store_all (h : gmap loc T) (ls : list loc) (vs : list T) : gmap loc T :=
  match ls, vs with
  | l :: ls, v :: vs => store_all (<[l := v]> h) ls vs
  | _, _ => h
  end.

(** allocation of the parameters of a new network *)
Fixpoint alloc_all (h : gmap loc T) (vs : list T) : gmap loc T * list loc :=
  match vs with
  | [] => (h, [])
  | v :: vs =>
    let l := fresh (dom h) in
    let '(h', ls) := alloc_all (<[l := v]> h) vs in
    (h', l :: ls)
  end.
End Store.

(** ** Environment *)

(** The simulator behind [gym.make]: [gym_step] returns the observation,
    the reward and the [done] flag (the [info] dictionary is dropped by
    every caller). *)
Class Gym (G Screen F : Type) : Type := {
  gym_reset : G → Screen * G;
  gym_render : G → Screen;
  gym_step : G → nat → (Screen * F * bool) * G;
  gym_action_n : G → nat
}.

(** [cv2.resize], transposition and scaling of one screen *)
Class Vision (Screen Frame : Type) : Type := {
  preprocess_screen : nat → nat → Screen → Frame
}.

Section Environment.
Context {G Screen F Frame : Type} `{Gym G Screen F} `{Vision Screen Frame}.

Record Environment : Type := mkEnvironment {
  game : G;
  width : nat;
  height : nat
}.

Definition Environment_init (g : G) : Environment :=
  {| game := g; width := 84; height := 84 |}.

Definition preprocess (e : Environment) (screen : Screen) : Frame :=
  preprocess_screen (height e) (width e) screen.

Definition get_screen (e : Environment) : Frame :=
  let screen := gym_render (game e) in
  preprocess e screen.

Definition env_step (e : Environment) (act : nat)
    : (Screen * F * bool) * Environment :=
  let '(out, g) := gym_step (game e) act in
  (out, {| game := g; width := width e; height := height e |}).

Definition env_reset (e : Environment) : Frame * Environment :=
  let '(observation, g) := gym_reset (game e) in
  (preprocess e observation,
   {| game := g; width := width e; height := height e |}).

Definition action_space (e : Environment) : nat := gym_action_n (game e).
End Environment.

Arguments Environment : clear implicits.

(** ** The tensor library

    [forward θ batch i]: the row of action values that the network with
    parameter values [θ] computes for item [i] of [batch] (in training
    mode the normalisation couples the items of a batch, so the row
    depends on the whole batch).  [backward] is the gradient of the loss
    with respect to the online parameters, [clamp] the element-wise
    [clamp_(-1, 1)], [rmsprop_step] the update of [optim.RMSprop]. *)
Class Torch (T F Frame OptState : Type) : Type := {
  forward : list T → list (list Frame) → nat → list F;
  gather : list (list F) → list nat → list F;
  smooth_l1_loss : list F → list F → F;
  backward : list T → list (list Frame) → list nat → list F → list T;
  clamp : T → T;
  rmsprop_step : OptState → list T → list T → OptState * list T;
  torch_sum : list F → F;
  torch_mean : list F → F;
  trunc : F → F
}.

(** ** Row and batch operations of torch and numpy *)

Section Tensors.
Context {F : Type} `{Num F}.

(** [.max(1)[0]] on one row; torch refuses an empty dimension *)
Definition row_max (row : list F) : Result F :=
  match row with
  | [] => Raise RuntimeError
  | x :: xs => Ok (foldl (λ m y, if fgt y m then y else m) x xs)
  end.

Fixpoint argmax_from (best : nat) (m : F) (k : nat) (xs : list F) : nat :=
  match xs with
  | [] => best
  | y :: ys =>
    if fgt y m then argmax_from k y (S k) ys
    else argmax_from best m (S k) ys
  end.

(** [.max(1)[1]] on one row *)
Definition row_argmax (row : list F) : Result nat :=
  match row with
  | [] => Raise RuntimeError
  | x :: xs => Ok (argmax_from 0 x 1 xs)
  end.

(** element-wise sum of two tensors with the same number of elements *)
Definition tensor_add (x y : list F) : Result (list F) :=
  if decide (length x = length y) then Ok (zip_with fadd x y)
  else Raise RuntimeError.

(** tensor times scalar *)
Definition tensor_scale (x : list F) (c : F) : list F := (λ v, fmul v c) <$> x.

(** [np.mean]: the sum of the elements, as floats, divided by their
    number *)
Definition mean (l : list F) : F :=
  fdiv (foldl fadd (of_int 0) l) (of_int (Z.of_nat (length l))).

Definition np_mean (l : list Z) : F := mean (of_int <$> l).
End Tensors.

Fixpoint chunks {A} (k n : nat) (l : list A) : list (list A) :=
  match k with
  | 0 => []
  | S k' => take n l :: chunks k' n (drop n l)
  end.

(** [x.view([k, 3, n, w, h])] of [k * n] frames: [k] items of [n] frames *)
Definition view {A} (k n : nat) (l : list A) : Result (list (list A)) :=
  if decide (length l = k * n) then Ok (chunks k n l) else Raise RuntimeError.

(** [np.stack] needs at least one array *)
Definition np_stack {A} (arrays : list A) : Result (list A) :=
  match arrays with
  | [] => Raise ValueError
  | _ => Ok arrays
  end.

Definition forward_batch `{Torch T F Frame OptState}
    (θ : list T) (batch : list (list Frame)) : list (list F) :=
  forward θ batch <$> seq 0 (length batch).

(** ** Agent *)

Section Agent.
Context {F Rng G Screen Frame T OptState : Type}.
Context `{Num F} `{Random Rng F} `{Gym G Screen F} `{Vision Screen Frame}.
Context `{Inhabited T} `{Torch T F Frame OptState}.

(** An action is the index held by the 1x1 [LongTensor]; a state is the
    array of the stacked frames. *)
Definition NpState : Type := list Frame.

Record Agent : Type := mkAgent {
  action_repeat : nat;
  frame_skipping : nat;
  _state_buffer : deque Frame;
  step : Z;
  _play_steps : deque Z;
  env : Environment G;
  heap : gmap loc T;
  dqn : DQN;
  target : DQN;
  optimizer : OptState;
  replay : ReplayMemory F NpState nat;
  epsilon : F;
  rng : Rng;
  saved : list Z
}.

Definition set_state_buffer (a : Agent) (b : deque Frame) : Agent :=
  mkAgent (action_repeat a) (frame_skipping a) b (step a) (_play_steps a)
    (env a) (heap a) (dqn a) (target a) (optimizer a) (replay a)
    (epsilon a) (rng a) (saved a).
Definition set_step (a : Agent) (n : Z) : Agent :=
  mkAgent (action_repeat a) (frame_skipping a) (_state_buffer a) n
    (_play_steps a) (env a) (heap a) (dqn a) (target a) (optimizer a)
    (replay a) (epsilon a) (rng a) (saved a).
Definition set_play_steps (a : Agent) (d : deque Z) : Agent :=
  mkAgent (action_repeat a) (frame_skipping a) (_state_buffer a) (step a) d
    (env a) (heap a) (dqn a) (target a) (optimizer a) (replay a)
    (epsilon a) (rng a) (saved a).
Definition set_env (a : Agent) (e : Environment G) : Agent :=
  mkAgent (action_repeat a) (frame_skipping a) (_state_buffer a) (step a)
    (_play_steps a) e (heap a) (dqn a) (target a) (optimizer a) (replay a)
    (epsilon a) (rng a) (saved a).
Definition set_online (a : Agent) (h : gmap loc T) (o : OptState) : Agent :=
  mkAgent (action_repeat a) (frame_skipping a) (_state_buffer a) (step a)
    (_play_steps a) (env a) h (dqn a) (target a) o (replay a)
    (epsilon a) (rng a) (saved a).
Definition set_target (a : Agent) (h : gmap loc T) (t : DQN) : Agent :=
  mkAgent (action_repeat a) (frame_skipping a) (_state_buffer a) (step a)
    (_play_steps a) (env a) h (dqn a) t (optimizer a) (replay a)
    (epsilon a) (rng a) (saved a).
Definition set_replay (a : Agent) (r : ReplayMemory F NpState nat) : Agent :=
  mkAgent (action_repeat a) (frame_skipping a) (_state_buffer a) (step a)
    (_play_steps a) (env a) (heap a) (dqn a) (target a) (optimizer a) r
    (epsilon a) (rng a) (saved a).
Definition set_epsilon (a : Agent) (e : F) : Agent :=
  mkAgent (action_repeat a) (frame_skipping a) (_state_buffer a) (step a)
    (_play_steps a) (env a) (heap a) (dqn a) (target a) (optimizer a)
    (replay a) e (rng a) (saved a).
Definition set_rng (a : Agent) (g : Rng) : Agent :=
  mkAgent (action_repeat a) (frame_skipping a) (_state_buffer a) (step a)
    (_play_steps a) (env a) (heap a) (dqn a) (target a) (optimizer a)
    (replay a) (epsilon a) g (saved a).
Definition set_saved (a : Agent) (l : list Z) : Agent :=
  mkAgent (action_repeat a) (frame_skipping a) (_state_buffer a) (step a)
    (_play_steps a) (env a) (heap a) (dqn a) (target a) (optimizer a)
    (replay a) (epsilon a) (rng a) l.

(** [__init__]: [θ0] are the initial parameter tensors of the new
    network and [o] the new optimizer state. *)
Definition Agent_init (g : G) (action_repeat frame_skipping : nat)
    (θ0 : list T) (o : OptState) (seed : Rng) : Agent :=
  let e := Environment_init g in
  let '(h, ls) := alloc_all ∅ θ0 in
  let online := {| n_action := action_space e; parameters := ls |} in
  let '(h, tgt) := deepcopy h online in
  {| action_repeat := action_repeat;
     frame_skipping := frame_skipping;
     _state_buffer := deque_new action_repeat;
     step := 0;
     _play_steps := deque_new 5;
     env := e;
     heap := h;
     dqn := online;
     target := tgt;
     optimizer := o;
     replay := ReplayMemory_init DEFAULT_CAPACITY;
     epsilon := EPSILON_START;
     rng := seed;
     saved := [] |}.

(** the property [play_step] *)
Definition play_step (a : Agent) : F := np_mean (items (_play_steps a)).

(** the value assigned to [self.epsilon] at lines 195-196, as a
    function of the two things it reads *)
Definition epsilon_at (step : Z) (play_step : F) : F :=
  fadd
    (fadd EPSILON_END
       (fmul (fsub EPSILON_START EPSILON_END)
          (math_exp (fdiv (fmul (of_int (-1)) (of_int step)) EPSILON_DECAY))))
    (fdiv (of_int 5) (fadd (of_int 1) play_step)).

(** the greedy branch: one forward pass on a batch of one item *)
Definition greedy_action (a : Agent) (states : NpState) : Result nat :=
  let states := [states] in
  row_argmax (forward (values (heap a) (dqn a)) states 0).

Definition select_action (a : Agent) (states : NpState) : Result (nat * Agent) :=
  let a := set_epsilon a (epsilon_at (step a) (play_step a)) in
  let '(u, g) := random (rng a) in
  let a := set_rng a g in
  if fgt (epsilon a) u then
    let '(act, g) := space_sample (action_space (env a)) (rng a) in
    Ok (act, set_rng a g)
  else
    act ← greedy_action a states;
    Ok (act, a).

Definition add_state (a : Agent) (st : Frame) : Agent :=
  set_state_buffer a (deque_append (_state_buffer a) st).

Definition recent_states (a : Agent) : NpState := items (_state_buffer a).

Definition get_initial_states (a : Agent) : Result (NpState * Agent) :=
  let '(_, e) := env_reset (env a) in
  let a := set_env a e in
  let st := get_screen (env a) in
  states ← np_stack (replicate (action_repeat a) st);
  let a := set_state_buffer a (deque_new (action_repeat a)) in
  let a := Nat.iter (action_repeat a) (λ a, add_state a st) a in
  Ok (states, a).

(** the frame that [get_initial_states] replicates: the screen after
    the reset *)
Definition first_frame (a : Agent) : Frame :=
  get_screen (env_reset (Frame := Frame) (env a)).2.

Definition _target_update (a : Agent) : Agent :=
  let '(h, t) := deepcopy (heap a) (dqn a) in
  set_target a h t.

Definition save_checkpoint (a : Agent) : Agent :=
  set_saved a (saved a ++ [step a]).

(** lines 297-308 of [optimize]: the reward batch, the target values
    and the second argument of the loss *)
Definition optimize_targets (gamma : F) (a : Agent)
    (transitions : Batch F NpState nat)
    : Result (list F * list F * list F) :=
  let reward_batch := concat (reward transitions) in
  let next_state_batch := concat (next_state transitions) in
  next_state_batch ← view BATCH_SIZE (action_repeat a) next_state_batch;
  target_values ←
    mapM row_max (forward_batch (values (heap a) (target a)) next_state_batch);
  targets ← tensor_add reward_batch (tensor_scale target_values gamma);
  Ok (reward_batch, target_values, targets).

Definition optimize (gamma : F) (a : Agent)
    : Result ((F * F * F * F) * Agent) :=
  '(transitions, g) ← sample (replay a) BATCH_SIZE (rng a);
  let a := set_rng a g in
  let state_batch := concat (state transitions) in
  let action_batch := action transitions in
  state_batch ← view BATCH_SIZE (action_repeat a) state_batch;
  '(reward_batch, target_values, targets) ← optimize_targets gamma a transitions;
  let θ := values (heap a) (dqn a) in
  let q_values := gather (forward_batch θ state_batch) action_batch in
  let loss := smooth_l1_loss q_values targets in
  let grads := clamp <$> backward θ state_batch action_batch targets in
  let '(o, θ') := rmsprop_step (optimizer a) θ grads in
  let a := set_online a (store_all (heap a) (parameters (dqn a)) θ') o in
  let reward_score := trunc (torch_sum reward_batch) in
  let q_mean := torch_mean q_values in
  let target_mean := torch_mean target_values in
  Ok ((loss, reward_score, q_mean, target_mean), a).

(** *** [train]

    The local variables of [train] that outlive an inner step:
    [reward] and [done] are bound by the first executed [env.step]
    and keep their last values afterwards. *)
Record Locals : Type := mkLocals {
  reward_sum : F;
  q_mean : F;
  target_mean : F;
  last_step : option (F * bool)
}.

Record Loop : Type := mkLoop {
  agent : Agent;
  states : NpState;
  losses : list F;
  checkpoint_flag : bool;
  target_update_flag : bool;
  play_steps : Z;
  locals : Locals
}.

(** the fields of the line printed after an episode *)
Record LogLine : Type := mkLogLine {
  log_step : Z;
  log_loss : F;
  log_play : Z;
  log_avg_play : F;
  log_reward_sum : F;
  log_q : F;
  log_target : F;
  log_epsilon : F;
  log_target_updated : bool;
  log_checkpoint : bool
}.

(** lines 245-252: the same action for up to [n] simulator steps *)
Fixpoint frame_skip (n : nat) (act : nat) (a : Agent) (last : option (F * bool))
    : Agent * option (F * bool) :=
  match n with
  | 0 => (a, last)
  | S n' =>
    let '(_, reward, done, e) := env_step (env a) act in
    let a := set_env a e in
    let next_state := get_screen (env a) in
    let a := add_state a next_state in
    if done then (a, Some (reward, done))
    else frame_skip n' act a (Some (reward, done))
  end.

(** one pass through the body of the inner loop; the boolean tells
    whether the loop is left *)
Definition train_step (gamma : F) (s : Loop) : Result (Loop * bool) :=
  '(act, a) ← select_action (agent s) (states s);
  let '(a, last) := frame_skip (frame_skipping a) act a (last_step (locals s)) in
  let next_states := recent_states a in
  match last with
  | None => Raise UnboundLocalError
  | Some (reward, done) =>
    let a := set_replay a (put (replay a) (states s) act reward next_states) in
    let states := next_states in
    let '(avail, r) := is_available (replay a) in
    let a := set_replay a r in
    '(a, losses, reward_sum, q_mean, target_mean) ←
      (if avail then
         '(loss, reward_sum, q_mean, target_mean, a) ← optimize gamma a;
         Ok (a, losses s ++ [loss], reward_sum, q_mean, target_mean)
       else
         Ok (a, losses s, reward_sum (locals s), q_mean (locals s),
             target_mean (locals s)));
    let l := mkLocals reward_sum q_mean target_mean last in
    if done then
      Ok (mkLoop a states losses (checkpoint_flag s) (target_update_flag s)
            (play_steps s) l, true)
    else
      let a := set_step a (step a + 1) in
      let play_steps := (play_steps s + 1)%Z in
      let '(a, target_update_flag) :=
        if decide (step a `mod` TARGET_UPDATE_INTERVAL = 0)%Z
        then (_target_update a, true)
        else (a, target_update_flag s) in
      let '(a, checkpoint_flag) :=
        if decide (step a `mod` CHECKPOINT_INTERVAL = 0)%Z
        then (save_checkpoint a, true)
        else (a, checkpoint_flag s) in
      Ok (mkLoop a states losses checkpoint_flag target_update_flag
            play_steps l, false)
  end.

(** the inner [while True]; [None] when the fuel runs out before the
    episode ends *)
Fixpoint train_episode (fuel : nat) (gamma : F) (s : Loop) : Result (option Loop) :=
  match fuel with
  | 0 => Ok None
  | S fuel' =>
    '(s', stop) ← train_step gamma s;
    if (stop : bool) then Ok (Some s') else train_episode fuel' gamma s'
  end.

(** one pass through the body of the outer loop *)
Definition train_iteration (fuel : nat) (gamma : F) (a : Agent) (l : Locals)
    : Result (option (Agent * Locals * LogLine)) :=
  '(states, a) ← get_initial_states a;
  let s := mkLoop a states [] false false 0 l in
  r ← train_episode fuel gamma s;
  match r with
  | None => Ok None
  | Some s =>
    let a := agent s in
    let a := set_play_steps a (deque_append (_play_steps a) (play_steps s)) in
    let line :=
      {| log_step := step a;
         log_loss := mean (losses s);
         log_play := play_steps s;
         log_avg_play := play_step a;
         log_reward_sum := reward_sum (locals s);
         log_q := q_mean (locals s);
         log_target := target_mean (locals s);
         log_epsilon := epsilon a;
         log_target_updated := target_update_flag s;
         log_checkpoint := checkpoint_flag s |} in
    Ok (Some (a, locals s, line))
  end.

(** the locals of [train] before the outer loop *)
Definition train_locals : Locals :=
  mkLocals (of_int 0) (of_int 0) (of_int 0) None.

(** *** Traces and invariants of [train] *)

(** the reward and the [done] flag of every simulator step that the
    loop of lines 245-252 executes *)
Fixpoint skip_trace (n : nat) (act : nat) (e : Environment G) : list (F * bool) :=
  match n with
  | 0 => []
  | S n' =>
    let '(_, reward, done, e') := env_step e act in
    (reward, done) :: (if done then [] else skip_trace n' act e')
  end.

(** a transition as [put] stores it for states of [n] frames *)
Definition shaped (n : nat) (t : Stored F NpState nat) : Prop :=
  length (state t) = n ∧ length (next_state t) = n ∧ length (reward t) = 1.

(** the replay memory of an agent in [train]: every transition comes
    from [put] with states of [action_repeat] frames, and the latch is
    set only when more than [BATCH_SIZE] transitions are held *)
Definition replay_ok (a : Agent) : Prop :=
  Forall (shaped (action_repeat a)) (items (memory (replay a))) ∧
  (_available (replay a) = true → BATCH_SIZE < size (replay a)).

(** the state of the inner loop: the current states and the full frame
    buffer have [action_repeat] frames *)
Definition loop_ok (s : Loop) : Prop :=
  replay_ok (agent s) ∧
  length (states s) = action_repeat (agent s) ∧
  length (items (_state_buffer (agent s))) = action_repeat (agent s) ∧
  maxlen (_state_buffer (agent s)) = action_repeat (agent s).
End Agent.

Arguments Agent : clear implicits.
Arguments Locals : clear implicits.
Arguments Loop : clear implicits.
Arguments LogLine : clear implicits.

(** ** Agent: the outer loop of [train] and [play] *)

Section Loops.
Context {F Rng G Screen Frame T OptState : Type}.
Context `{Num F} `{Random Rng F} `{Gym G Screen F} `{Vision Screen Frame}.
Context `{Inhabited T} `{Torch T F Frame OptState}.

(** [n] passes through the body of the outer [while True] of [train],
    each with [fuel] for its inner loop; the printed lines are returned
    in order.  [None] when an episode does not end within the fuel. *)
Fixpoint train_loop (n fuel : nat) (gamma : F)
    (a : Agent F Rng G Frame T OptState) (l : Locals F)
    : Result (option (Agent F Rng G Frame T OptState * Locals F * list (LogLine F))) :=
  match n with
  | 0 => Ok (Some (a, l, []))
  | S n' =>
    r ← train_iteration fuel gamma a l;
    match r with
    | None => Ok None
    | Some (a, l, line) =>
      r ← train_loop n' fuel gamma a l;
      match r with
      | None => Ok None
      | Some (a, l, lines) => Ok (Some (a, l, line :: lines))
      end
    end
  end.

(** [train] from its first line: the locals start unbound or zero *)
Definition train (n fuel : nat) (gamma : F) (a : Agent F Rng G Frame T OptState) :=
  train_loop n fuel gamma a train_locals.

(** the two networks of an agent: no tensor is listed twice, the online
    tensors are allocated, and no tensor belongs to both networks *)
Definition nets_ok (a : Agent F Rng G Frame T OptState) : Prop :=
  NoDup (parameters (dqn a)) ∧ NoDup (parameters (target a)) ∧
  Forall (λ l, l ∈ dom (heap a)) (parameters (dqn a)) ∧
  Forall (λ l, l ∉ parameters (dqn a)) (parameters (target a)).

(** the body of the loop of [play], lines 359-374: the greedy action,
    one simulator step, the new screen pushed on the frame buffer.  The
    printed pairs of action and reward are returned in order. *)
Fixpoint play_loop (fuel : nat) (a : Agent F Rng G Frame T OptState)
    (states : NpState) (out : list (nat * F))
    : Result (option (Agent F Rng G Frame T OptState * list (nat * F))) :=
  match fuel with
  | 0 => Ok None
  | S fuel' =>
    act ← greedy_action a states;
    let '(_, reward, done, e) := env_step (env a) act in
    let a := set_env a e in
    let out := out ++ [(act, reward)] in
    let next_state := get_screen (env a) in
    let a := add_state a next_state in
    let states := recent_states a in
    if done then Ok (Some (a, out)) else play_loop fuel' a states out
  end.

(** [play], lines 355-375: a reset of the game, the initial states and
    the loop.  The window that [render] draws and the final [close] of
    the game are outside the model. *)
Definition play (fuel : nat) (a : Agent F Rng G Frame T OptState)
    : Result (option (Agent F Rng G Frame T OptState * list (nat * F))) :=
  let '(_, g) := gym_reset (game (env a)) in
  let a := set_env a (mkEnvironment g (width (env a)) (height (env a))) in
  '(states, a) ← get_initial_states a;
  play_loop fuel a states [].
End Loops.

(** ** Checkpoints

    The file system maps a path to the dictionary that [torch.save]
    wrote there.  A state dictionary is the list of the values of the
    parameter tensors, in the order of [parameters()]; its keys are the
    names of the layers, which are the same for every [DQN].  File names
    are ASCII strings. *)

(** the exceptions of the checkpoint functions: those of the file
    system and of [re], beside the built-in ones *)
Inductive FileErr : Type :=
| FileNotFoundError
| AttributeError
| Builtin (e : PyErr).

(** [str] of an [int]: the rendering of [{self.step}] at line 280 *)
Definition str (n : Z) : string := NilZero.string_of_int (Z.to_int n).

(** [int] of a string of decimal digits (the only strings it is given
    are matches of [\d+]) *)
Definition int (s : string) : Result Z :=
  match NilZero.uint_of_string s with
  | Some d => Ok (Z.of_uint d)
  | None => Raise ValueError
  end.

(** the name under which [train] saves at step [n] *)
Definition checkpoint_path (n : Z) : string :=
  "dqn_checkpoints/checkpoint_" +:+ str n +:+ ".pth.tar".

Fixpoint strip_prefix (p s : string) : option string :=
  match p, s with
  | EmptyString, _ => Some s
  | String a p', String b s' =>
    if Ascii.eqb a b then strip_prefix p' s' else None
  | String _ _, EmptyString => None
  end.

Definition is_digit (c : ascii) : bool :=
  (48 <=? nat_of_ascii c) && (nat_of_ascii c <=? 57).

(** the longest prefix of digits, and what follows it *)
Fixpoint span_digits (s : string) : string * string :=
  match s with
  | EmptyString => (EmptyString, EmptyString)
  | String c s' =>
    if is_digit c
    then let '(ds, rest) := span_digits s' in (String c ds, rest)
    else (EmptyString, s)
  end.

Definition newline : string := String (ascii_of_nat 10) EmptyString.

(** the pattern of line 344 matched at the start of [s]; the result is
    the group [number].  After the longest run of digits comes a dot or
    the match fails, so giving digits back cannot help; the dollar
    matches at the end and before a last newline. *)
Definition match_here (s : string) : option string :=
  s' ← strip_prefix "checkpoint_" s;
  let '(ds, rest) := span_digits s' in
  if bool_decide (ds ≠ EmptyString ∧
                  (rest = ".pth.tar" ∨ rest = ".pth.tar" +:+ newline))
  then Some ds else None.

(** [r.search(x).group('number')]: the match at the leftmost position
    that has one *)
Fixpoint re_search (s : string) : option string :=
  match match_here s with
  | Some ds => Some ds
  | None =>
    match s with
    | EmptyString => None
    | String _ s' => re_search s'
    end
  end.

(** the element that line 347 builds for the file [x] *)
Definition numbered (x : string) : FileErr + (Z * string) :=
  match re_search x with
  | None => inl AttributeError
  | Some ds =>
    match int ds with
    | Ok n => inr (n, x)
    | Raise e => inl (Builtin e)
    end
  end.

(** [list(map(...))] of line 347: the first file that fails ends it *)
Fixpoint numbered_all (files : list string) : FileErr + list (Z * string) :=
  match files with
  | [] => inr []
  | x :: files =>
    match numbered x with
    | inl e => inl e
    | inr p =>
      match numbered_all files with
      | inl e => inl e
      | inr ps => inr (p :: ps)
      end
    end
  end.

(** [sorted(files, key=lambda x: x[0])].  Python's sort is stable, and
    all stable sorts agree; this one inserts from the right. *)
Fixpoint insert_by_number (x : Z * string) (l : list (Z * string))
    : list (Z * string) :=
  match l with
  | [] => [x]
  | y :: l' =>
    if decide (x.1 ≤ y.1)%Z then x :: y :: l' else y :: insert_by_number x l'
  end.

Definition sorted (l : list (Z * string)) : list (Z * string) :=
  foldr insert_by_number [] l.

Section Checkpoints.
Context {F Rng G Screen Frame T OptState : Type}.
Context `{Num F} `{Random Rng F} `{Gym G Screen F} `{Vision Screen Frame}.
Context `{Inhabited T} `{Torch T F Frame OptState}.

(** the dictionary of lines 328-333 *)
Record Checkpoint : Type := mkCheckpoint {
  ck_dqn : list T;
  ck_target : list T;
  ck_optimizer : OptState;
  ck_step : Z
}.

Definition Files : Type := gmap string Checkpoint.


(** [load_state_dict] copies the loaded values into the tensors of the
    network, in place; it refuses a dictionary whose keys are not those
    of the network *)
Definition load_state_dict (h : gmap loc T) (net : DQN) (sd : list T)
    : Result (gmap loc T) :=
  if decide (length sd = length (parameters net))
  then Ok (store_all h (parameters net) sd)
  else Raise RuntimeError.


(** [load_checkpoint], lines 336-341; its argument [epsilon] is never
    read *)
Definition load_checkpoint (fs : Files) (a : Agent F Rng G Frame T OptState)
    (filename : string) : FileErr + Agent F Rng G Frame T OptState :=
  match fs !! filename with
  | None => inl FileNotFoundError
  | Some checkpoint =>
    match load_state_dict (heap a) (dqn a) (ck_dqn checkpoint) with
    | Raise e => inl (Builtin e)
    | Ok h =>
      match load_state_dict h (target a) (ck_target checkpoint) with
      | Raise e => inl (Builtin e)
      | Ok h =>
        let a := set_online a h (ck_optimizer checkpoint) in
        inr (set_step a (ck_step checkpoint))
      end
    end
  end.

(** [load_latest_checkpoint], lines 343-353; [files] is the list that
    [glob.glob] returned, in its order *)
Definition load_latest_checkpoint (files : list string) (fs : Files)
    (a : Agent F Rng G Frame T OptState)
    : FileErr + Agent F Rng G Frame T OptState :=
  match files with
  | [] => inr a
  | x :: _ =>
    match numbered_all files with
    | inl e => inl e
    | inr ps =>
      let latest_file := (List.last (sorted ps) (0%Z, x)).2 in
      load_checkpoint fs a latest_file
    end
  end.
End Checkpoints.

Arguments Checkpoint : clear implicits.
Arguments Files : clear implicits.

(** ** Runs

    Sequences of method calls, used to state properties of histories. *)

Section Runs.
Context {F NpState Action : Type}.

(** the arguments of one call of [put] *)
Definition PutArgs : Type := NpState * Action * F * NpState.

Definition put_args (r : ReplayMemory F NpState Action) (p : PutArgs)
    : ReplayMemory F NpState Action :=
  let '(st, act, rew, nst) := p in put r st act rew nst.

Definition stored (p : PutArgs) : Stored F NpState Action :=
  let '(st, act, rew, nst) := p in mkTransition st act [rew] nst.

Definition put_all (r : ReplayMemory F NpState Action) (ps : list PutArgs)
    : ReplayMemory F NpState Action :=
  foldl put_args r ps.

(** a memory of capacity [c] after [n] calls of [put]: it holds
    [min n c] items, and its latch is set only if these are more than
    [BATCH_SIZE] *)
Definition filled (c n : nat) (r : ReplayMemory F NpState Action) : Prop :=
  maxlen (memory r) = c ∧ len (memory r) = n `min` c ∧
  (_available r = true → BATCH_SIZE < n `min` c).

Inductive MemoryCall : Type :=
| CallPut (p : PutArgs)
| CallIsAvailable.

(** Runs the calls in order; every answer of [is_available] is recorded
    together with the number of [put] calls made before it ([n] counts
    the earlier ones). *)
Fixpoint answers (r : ReplayMemory F NpState Action) (n : nat)
    (calls : list MemoryCall) : list (nat * bool) :=
  match calls with
  | [] => []
  | CallPut p :: calls => answers (put_args r p) (S n) calls
  | CallIsAvailable :: calls =>
    let '(b, r') := is_available r in (n, b) :: answers r' n calls
  end.
End Runs.

Arguments PutArgs : clear implicits.
Arguments MemoryCall : clear implicits.

(** ** Small instances

    A simulator that ends every episode at its first step, one that ends
    it at the third, a counter as generator and a two-action network with
    constant outputs.  They serve as concrete inputs. *)

Module Toy.
(** stands for the exponential of the C library: its value at zero *)
Definition exp_at_zero (x : spec_float) : spec_float :=
  binary_normalize prec64 emax64 1 0 false.

#[global] Instance num : Num spec_float := Binary64 exp_at_zero.

#[global] Instance counter `{Num F} : Random nat F := {|
  random := λ g, (fdiv (of_int 1) (of_int 2), S g);
  draw := λ g, (g, S g);
  space_sample := λ n g, (g mod n, S g)
|}.

(** the state is the number of steps taken since the last reset *)
Inductive OneShot : Type := one_shot (t : nat).
Inductive ThreeSteps : Type := three_steps (t : nat).

#[global] Instance one_shot_gym `{Num F} : Gym OneShot nat F := {|
  gym_reset := λ _, (0, one_shot 0);
  gym_render := λ '(one_shot t), t;
  gym_step := λ '(one_shot t) _, ((S t, of_int 1, true), one_shot (S t));
  gym_action_n := λ _, 2
|}.

#[global] Instance three_steps_gym `{Num F} : Gym ThreeSteps nat F := {|
  gym_reset := λ _, (0, three_steps 0);
  gym_render := λ '(three_steps t), t;
  gym_step := λ '(three_steps t) _,
    ((S t, of_int (Z.of_nat (S t)), bool_decide (3 ≤ S t)), three_steps (S t));
  gym_action_n := λ _, 2
|}.

#[global] Instance vision : Vision nat nat := {|
  preprocess_screen := λ _ _ screen, screen
|}.

Definition sum_of `{Num F} (l : list F) : F := foldl fadd (of_int 0) l.

#[global] Instance net `{Num F} : Torch Z F nat unit := {|
  forward := λ _ _ _, [of_int 0; of_int 1];
  gather := λ rows acts, zip_with (λ row a, default (of_int 0) (row !! a)) rows acts;
  smooth_l1_loss := λ _ _, of_int 0;
  backward := λ θ _ _ _, θ;
  clamp := λ t, t;
  rmsprop_step := λ o θ _, (o, (λ t, (t + 1)%Z) <$> θ);
  torch_sum := sum_of;
  torch_mean := λ l, fdiv (sum_of l) (of_int (Z.of_nat (length l)));
  trunc := λ x, x
|}.

Definition one_shot_agent `{Num F} : Agent F nat OneShot nat Z unit :=
  Agent_init (one_shot 7) 4 4 [1; 2; 3]%Z tt 0.

Definition three_steps_agent `{Num F} : Agent F nat ThreeSteps nat Z unit :=
  Agent_init (three_steps 0) 4 4 [1; 2; 3]%Z tt 0.

Definition gamma : spec_float := fdiv (of_int 99) (of_int 100).

(** the loop state at the start of the first episode of
    [three_steps_agent] *)
Definition three_steps_start : Loop spec_float nat ThreeSteps nat Z unit :=
  match get_initial_states three_steps_agent with
  | Ok (st, a0) => mkLoop a0 st [] false false 0 train_locals
  | Raise _ => mkLoop three_steps_agent [] [] false false 0 train_locals
  end.

(** an agent that repeats no action: one simulator step per inner
    step, so that an episode of [three_steps_gym] has three inner
    steps *)
Definition single_step_agent `{Num F} : Agent F nat ThreeSteps nat Z unit :=
  Agent_init (three_steps 0) 4 1 [1; 2; 3]%Z tt 0.

(** the loop state at the start of its first episode *)
Definition single_step_start : Loop spec_float nat ThreeSteps nat Z unit :=
  match get_initial_states single_step_agent with
  | Ok (st, a0) => mkLoop a0 st [] false false 0 train_locals
  | Raise _ => mkLoop single_step_agent [] [] false false 0 train_locals
  end.


Definition no_frame_agent : Agent spec_float nat OneShot nat Z unit :=
  Agent_init (one_shot 7) 0 4 [1; 2; 3]%Z tt 0.

(** an agent over the reals that has recorded one episode of three
    steps *)
Definition short_episode_agent : Agent R nat OneShot nat Z unit :=
  set_play_steps one_shot_agent (Deque 5 [3%Z]).

(** the files of a checkpoint directory, as listed *)
Definition listing : list string :=
  ["dqn_checkpoints/checkpoint_500.pth.tar";
   "dqn_checkpoints/checkpoint_5000.pth.tar";
   "dqn_checkpoints/checkpoint_1000.pth.tar"].



(** arguments of [put]: the [i]-th transition of a history *)
Definition nth_put (i : nat) : PutArgs spec_float (list nat) nat :=
  ([i], 0, of_int (Z.of_nat i), [S i]).
End Toy.

(** * Properties *)

(** ** The bounded deque *)

Section DequeFacts.
Context {A : Type}.
Implicit Types (d : deque A) (x : A) (xs : list A).

Lemma maxlen_append d x : maxlen (deque_append d x) = maxlen d.
Proof. reflexivity. Qed.

Lemma maxlen_appends d xs : maxlen (foldl deque_append d xs) = maxlen d.
Proof.
  revert d. induction xs as [|x xs IH]; intros d; [done|].
  simpl. by rewrite IH.
Qed.

(** a full deque slides by one *)
Lemma items_append_full d x :
  length (items d) = maxlen d →
  items (deque_append d x) = drop 1 (items d ++ [x]).
Proof.
  intros Hfull. unfold deque_append. simpl.
  rewrite length_app. simpl.
  destruct (decide _) as [|Hn]; [done|]. lia.
Qed.

Lemma items_append_room d x :
  length (items d) < maxlen d →
  items (deque_append d x) = items d ++ [x].
Proof.
  intros Hroom. unfold deque_append. simpl.
  rewrite length_app. simpl.
  destruct (decide _) as [Hn|]; [lia|done].
Qed.

(** an append never shortens the deque *)
Lemma len_append_mono d x : len d ≤ len (deque_append d x).
Proof.
  unfold len, deque_append. simpl.
  destruct (decide _); rewrite ?length_drop, length_app; simpl; lia.
Qed.

Lemma elem_of_append d x y :
  y ∈ items (deque_append d x) → y ∈ items d ∨ y = x.
Proof.
  unfold deque_append. simpl. intros Hy.
  assert (y ∈ items d ++ [x]) as Hin.
  { destruct (decide _); [|done]. by eapply subseteq_drop. }
  apply elem_of_app in Hin as [?|Hx]; [by left|].
  right. by apply list_elem_of_singleton in Hx.
Qed.

(** what a deque that started empty holds after the appends [xs] *)
Lemma items_appends_new (c : nat) xs :
  items (foldl deque_append (deque_new c) xs) = drop (length xs - c) xs.
Proof.
  induction xs as [|x xs IH] using rev_ind; [done|].
  rewrite foldl_app. simpl.
  pose proof (maxlen_appends (deque_new c) xs) as Hmax.
  set (d := foldl deque_append (deque_new c) xs) in *.
  unfold deque_append. simpl in *.
  rewrite Hmax, IH.
  rewrite !length_app, length_drop. simpl.
  destruct (decide _) as [Hlt|Hge].
  - destruct (decide (c = 0)) as [->|Hc].
    + rewrite Nat.sub_0_r, drop_all. simpl.
      replace (length xs + 1 - 0) with (length (xs ++ [x]))
        by (rewrite length_app; simpl; lia).
      by rewrite drop_all.
    + rewrite drop_app_le by (rewrite length_drop; lia).
      rewrite drop_drop.
      replace (length xs + 1 - c) with (length xs - c + 1) by lia.
      rewrite drop_app_le by lia. done.
  - replace (length xs + 1 - c) with 0 by lia.
    replace (length xs - c) with 0 by lia. done.
Qed.
End DequeFacts.

(** ** Selection from a pool *)

Section PoolFacts.
Context {Rng F : Type} `{Random Rng F}.

Lemma randbelow_lt (n : nat) (g : Rng) : 0 < n → (randbelow n g).1 < n.
Proof.
  intros Hn. unfold randbelow. destruct (draw g) as [x g']. simpl.
  apply Nat.mod_upper_bound. lia.
Qed.

(** moving an element into the hole left by another one *)
Lemma swap_out_perm {A} (l : list A) (j : nat) (x y : A) :
  l !! j = Some x → x :: <[j := y]> l ≡ₚ y :: l.
Proof.
  revert j. induction l as [|z l IH]; intros [|j] Hj; simplify_eq/=.
  - apply perm_swap.
  - rewrite perm_swap. rewrite (IH j Hj). apply perm_swap.
Qed.

(** one draw: the element taken and the live part that remains are the
    old live part, rearranged *)
Lemma live_step_perm {A} (l : list A) (j : nat) (x y : A) :
  l !! j = Some x → l !! (length l - 1) = Some y →
  x :: take (length l - 1) (<[j := y]> l) ≡ₚ l.
Proof.
  intros Hj Hlast.
  destruct l as [|a l0] using rev_ind; [done|]. clear IHl0.
  rewrite length_app in *. simpl in *.
  replace (length l0 + 1 - 1) with (length l0) in * by lia.
  rewrite lookup_app_r, Nat.sub_diag in Hlast by lia. simplify_eq/=.
  destruct (decide (j < length l0)) as [Hlt|Hge].
  - rewrite lookup_app_l in Hj by done.
    rewrite insert_app_l by done.
    rewrite take_app_length' by (by rewrite length_insert).
    rewrite (swap_out_perm _ _ _ _ Hj). apply Permutation_cons_append.
  - apply lookup_lt_Some in Hj as Hb. rewrite length_app in Hb. simpl in Hb.
    assert (j = length l0) as -> by lia.
    rewrite lookup_app_r, Nat.sub_diag in Hj by lia. simplify_eq/=.
    rewrite insert_app_r_alt, Nat.sub_diag by lia. simpl.
    rewrite take_app_length. apply Permutation_cons_append.
Qed.

(** the selection commutes with a map over the pool: it only looks at
    positions *)
Lemma pool_select_fmap {A B} (f : A → B) (todo n i : nat) (pool : list A) (g : Rng) :
  pool_select n (f <$> pool) i todo g
  = ((f <$> (pool_select n pool i todo g).1), (pool_select n pool i todo g).2).
Proof.
  revert i pool g. induction todo as [|todo IH]; intros i pool g; [done|].
  simpl. destruct (randbelow (n - i) g) as [j g1].
  rewrite !list_lookup_fmap.
  destruct (pool !! j) as [x|]; [|done]. simpl.
  destruct (pool !! (n - i - 1)) as [y|]; [|done]. simpl.
  rewrite <- list_fmap_insert, IH.
  by destruct (pool_select n (<[j:=y]> pool) (S i) todo g1).
Qed.

(** [todo] elements are returned, and they are taken from the live
    part of the pool with their multiplicity *)
Lemma pool_select_live {A} (todo n i : nat) (pool : list A) (g : Rng) :
  length pool = n → i + todo ≤ n →
  let res := (pool_select n pool i todo g).1 in
  length res = todo ∧ res ⊆+ take (n - i) pool.
Proof.
  revert i pool g. induction todo as [|todo IH]; intros i pool g Hn Hi.
  { simpl. split; [done|]. apply submseteq_nil_l. }
  simpl.
  pose proof (randbelow_lt (n - i) g ltac:(lia)) as Hj.
  destruct (randbelow (n - i) g) as [j g1]. simpl in Hj.
  destruct (lookup_lt_is_Some_2 pool j ltac:(lia)) as [x Hx].
  destruct (lookup_lt_is_Some_2 pool (n - i - 1) ltac:(lia)) as [y Hy].
  rewrite Hx, Hy.
  specialize (IH (S i) (<[j:=y]> pool) g1).
  rewrite length_insert in IH. specialize (IH Hn ltac:(lia)).
  destruct (pool_select n (<[j:=y]> pool) (S i) todo g1) as [res g2].
  simpl in *. destruct IH as [Hlen Hsub]. split; [by rewrite Hlen|].
  set (live := take (n - i) pool).
  assert (length live = n - i) as Hlive
    by (unfold live; rewrite length_take; lia).
  assert (take (n - S i) (<[j:=y]> pool)
          = take (length live - 1) (<[j:=y]> live)) as Heq.
  { unfold live at 2. rewrite <- take_insert_lt by done.
    rewrite take_take, Hlive. f_equal. lia. }
  rewrite Heq in Hsub.
  rewrite <- (live_step_perm live j x y).
  - by apply submseteq_skip.
  - unfold live. by rewrite lookup_take_lt.
  - rewrite Hlive. unfold live. rewrite lookup_take_lt by lia. done.
Qed.

Lemma submseteq_NoDup {A} (l k : list A) : l ⊆+ k → NoDup k → NoDup l.
Proof.
  intros [k' Hk]%submseteq_Permutation Hnd. rewrite Hk in Hnd.
  by apply NoDup_app in Hnd as [? _].
Qed.

(** [random.sample] returns the elements found at [k] different
    positions of the population *)
Lemma random_sample_positions {A} (population : list A) (k : nat) (g : Rng) :
  k ≤ length population →
  ∃ res g' idx,
    random_sample population k g = Ok (res, g') ∧
    length res = k ∧ length idx = k ∧ NoDup idx ∧
    Forall2 (λ i x, population !! i = Some x) idx res.
Proof.
  intros Hk. unfold random_sample.
  destruct (decide _) as [_|]; [|lia].
  set (n := length population).
  set (pairs := zip (seq 0 n) population).
  assert (population = pairs.*2) as Hpop
    by (unfold pairs; rewrite snd_zip; [done|by rewrite length_seq]).
  assert (pairs.*1 = seq 0 n) as Hfst
    by (unfold pairs; rewrite fst_zip; [done|by rewrite length_seq]).
  assert (length pairs = n) as Hlen
    by (by rewrite <- (length_fmap fst), Hfst, length_seq).
  destruct (pool_select_live k n 0 pairs g Hlen ltac:(lia)) as [Hres Hsub].
  rewrite Nat.sub_0_r, take_ge in Hsub by lia.
  pose proof (pool_select_fmap snd k n 0 pairs g) as Hsel.
  rewrite <- Hpop in Hsel. rewrite Hsel. clear Hsel.
  destruct (pool_select n pairs 0 k g) as [res g']. simpl in *.
  exists (res.*2), g', (res.*1). split; [done|].
  rewrite !length_fmap. split_and!; try done.
  - eapply submseteq_NoDup; [by apply fmap_submseteq|].
    rewrite Hfst. apply NoDup_seq.
  - apply Forall2_fmap, Forall2_same_length_lookup_2; [done|].
    intros i [p x] [p' x'] Hi1 Hi2. simplify_eq/=.
    assert ((p, x) ∈ pairs) as Hin.
    { eapply elem_of_submseteq; [|done]. by eapply list_elem_of_lookup_2. }
    apply list_elem_of_lookup in Hin as [q Hq].
    unfold pairs in Hq. apply lookup_zip_with_Some in Hq
      as (a & b & ? & Ha & Hb). simplify_eq.
    apply lookup_seq in Ha as [-> _]. done.
Qed.
End PoolFacts.

(** ** ReplayMemory *)

Section ReplayFacts.
Context {F NpState Action : Type}.
Implicit Types (r : ReplayMemory F NpState Action).
Implicit Types (p : PutArgs F NpState Action).

Lemma memory_put_args r p :
  memory (put_args r p) = deque_append (memory r) (stored p).
Proof. by destruct p as [[[st act] rew] nst]. Qed.

Lemma available_put_args r p : _available (put_args r p) = _available r.
Proof. by destruct p as [[[st act] rew] nst]. Qed.

Lemma memory_put_all r ps :
  memory (put_all r ps) = foldl deque_append (memory r) (stored <$> ps).
Proof.
  unfold put_all. revert r. induction ps as [|p ps IH]; intros r; [done|].
  simpl. by rewrite IH, memory_put_args.
Qed.

Lemma size_put_mono r p : size r ≤ size (put_args r p).
Proof. unfold size. rewrite memory_put_args. apply len_append_mono. Qed.

Lemma filled_init c :
  filled c 0 (ReplayMemory_init c : ReplayMemory F NpState Action).
Proof. by split_and!. Qed.

Lemma filled_put c n r p : filled c n r → filled c (S n) (put_args r p).
Proof.
  intros (Hmax & Hlen & Hlatch). unfold filled.
  rewrite memory_put_args, available_put_args, maxlen_append.
  split_and!; [done| |intros ?%Hlatch; lia].
  unfold len in *. destruct (decide (n < c)).
  - rewrite items_append_room by (rewrite Hmax, Hlen; lia).
    rewrite length_app. cbn [length]. lia.
  - rewrite items_append_full by (rewrite Hmax, Hlen; lia).
    rewrite length_drop, length_app. cbn [length]. lia.
Qed.

Lemma filled_is_available c n r :
  filled c n r →
  (is_available r).1 = bool_decide (BATCH_SIZE < n `min` c) ∧
  filled c n (is_available r).2.
Proof.
  intros Hr. pose proof Hr as (Hmax & Hlen & Hlatch). unfold is_available.
  destruct (_available r) eqn:Hav.
  { simpl. split; [|done].
    symmetry. apply bool_decide_eq_true. auto. }
  rewrite Hlen. destruct (decide _) as [Hlt|Hge]; simpl.
  - split; [symmetry; by apply bool_decide_eq_true|]. by split_and!.
  - rewrite Hav. split; [symmetry; by apply bool_decide_eq_false|done].
Qed.

Lemma answers_filled c n r calls i m b :
  filled c n r → answers r n calls !! i = Some (m, b) →
  n ≤ m ∧ b = bool_decide (BATCH_SIZE < m `min` c).
Proof.
  revert r n i. induction calls as [|[p|] calls IH]; intros r n i Hr Hi.
  - done.
  - simpl in Hi. apply IH in Hi as [??]; [|by apply filled_put].
    split; [lia|done].
  - simpl in Hi. destruct (filled_is_available c n r Hr) as [Hb Hr'].
    destruct (is_available r) as [b' r']. simpl in *.
    destruct i as [|i]; simplify_eq/=; [done|]. by eapply IH.
Qed.

Lemma answers_ordered c n r calls i j m1 b1 m2 b2 :
  filled c n r → i ≤ j →
  answers r n calls !! i = Some (m1, b1) →
  answers r n calls !! j = Some (m2, b2) → m1 ≤ m2.
Proof.
  revert r n i j. induction calls as [|[p|] calls IH]; intros r n i j Hr Hij Hi Hj.
  - done.
  - simpl in *.
    by eapply (IH (put_args r p) (S n) i j); [apply filled_put|..].
  - simpl in *. destruct (filled_is_available c n r Hr) as [Hb Hr'].
    destruct (is_available r) as [b' r']. simpl in *.
    destruct i as [|i], j as [|j]; simplify_eq/=; try lia.
    + by eapply answers_filled in Hj as [? _].
    + by eapply (IH r' n i j); [|lia|..].
Qed.

(** C3. After more than [capacity] calls of [put] on a new memory,
    [size()] is the capacity and the memory holds the transitions of
    the last [capacity] calls, oldest first. *)
Theorem put_fifo_eviction (c : nat) (ps : list (PutArgs F NpState Action)) :
  c < length ps →
  size (put_all (ReplayMemory_init c) ps) = c ∧
  items (memory (put_all (ReplayMemory_init c) ps))
  = stored <$> drop (length ps - c) ps.
Proof.
  intros Hc. rewrite memory_put_all.
  assert (items (foldl deque_append (memory (ReplayMemory_init c)) (stored <$> ps))
          = stored <$> drop (length ps - c) ps) as Hitems.
  { change (memory (ReplayMemory_init c)) with (deque_new (A := Stored F NpState Action) c).
    by rewrite items_appends_new, length_fmap, fmap_drop. }
  split; [|done].
  unfold size, len. rewrite memory_put_all, Hitems, length_fmap, length_drop. lia.
Qed.

(** C2, amended. In every history of [put] and [is_available] calls on
    a new memory of capacity [c], a call of [is_available] made after
    [n] calls of [put] answers whether [min n c], the number of items
    held, exceeds [BATCH_SIZE]; and no call answers false after a call
    that answered true. *)
Theorem is_available_latch (c : nat) (calls : list (MemoryCall F NpState Action)) :
  Forall (λ '(n, b), b = bool_decide (BATCH_SIZE < n `min` c))
    (answers (ReplayMemory_init c) 0 calls) ∧
  ∀ i j n m b, i ≤ j →
    answers (ReplayMemory_init c) 0 calls !! i = Some (n, true) →
    answers (ReplayMemory_init c) 0 calls !! j = Some (m, b) →
    b = true.
Proof.
  split.
  - apply Forall_lookup_2. intros i [n b] Hi.
    by eapply answers_filled in Hi as [_ ?]; [|apply filled_init].
  - intros i j n m b Hij Hi Hj.
    pose proof (answers_ordered c 0 _ calls i j _ _ _ _ (filled_init c) Hij Hi Hj).
    eapply answers_filled in Hi as [_ Hn]; [|apply filled_init].
    eapply answers_filled in Hj as [_ ->]; [|apply filled_init].
    symmetry in Hn. apply bool_decide_eq_true in Hn.
    apply bool_decide_eq_true. lia.
Qed.
End ReplayFacts.

Section SampleFacts.
Context {F Rng NpState Action : Type} `{Random Rng F}.
Implicit Types (r : ReplayMemory F NpState Action).

(** C8, amended. For [1 ≤ k ≤ size()], [sample(k)] returns the
    columns of [k] transitions found at [k] different positions of the
    memory; for [k > size()] it raises [ValueError], and for [k = 0] it
    raises [TypeError]. *)
Theorem sample_without_replacement r (k : nat) (g : Rng) :
  (1 ≤ k ≤ size r →
   ∃ ts idx g',
     sample r k g = Ok (columns ts, g') ∧
     length ts = k ∧ length idx = k ∧ NoDup idx ∧
     Forall2 (λ i t, items (memory r) !! i = Some t) idx ts) ∧
  (size r < k → sample r k g = Raise ValueError) ∧
  (k = 0 → sample r k g = Raise TypeError).
Proof.
  unfold sample, size, len. split_and!.
  - intros [Hk1 Hk2].
    destruct (random_sample_positions (items (memory r)) k g Hk2)
      as (ts & g' & idx & -> & Hlen & Hidx & Hnd & Hall).
    exists ts, idx, g'. split_and!; try done.
    simpl. destruct ts; [simpl in *; lia|done].
  - intros Hk. unfold random_sample.
    destruct (decide _); [lia|done].
  - intros ->. unfold random_sample.
    destruct (decide _); [done|lia].
Qed.
End SampleFacts.

(** C3 at the capacity 3: five transitions are put, the last three stay. *)
Lemma put_fifo_eviction_capacity_3 :
  3 < length (Toy.nth_put <$> [1; 2; 3; 4; 5]) ∧
  size (put_all (ReplayMemory_init 3) (Toy.nth_put <$> [1; 2; 3; 4; 5])) = 3 ∧
  items (memory (put_all (ReplayMemory_init 3) (Toy.nth_put <$> [1; 2; 3; 4; 5])))
  = stored <$> (Toy.nth_put <$> [3; 4; 5]).
Proof.
  assert (3 < length (Toy.nth_put <$> [1; 2; 3; 4; 5])) as Hlen
    by (simpl; lia).
  split; [exact Hlen|].
  exact (put_fifo_eviction 3 (Toy.nth_put <$> [1; 2; 3; 4; 5]) Hlen).
Defined.

(** C2 as stated fails for a capacity of at most [BATCH_SIZE]: with
    capacity 3, after 17 calls of [put], [is_available] answers false. *)
Lemma is_available_false_after_17_puts :
  answers (ReplayMemory_init 3) 0
    ((CallPut ∘ Toy.nth_put <$> seq 1 17) ++ [CallIsAvailable])
  = [(17, false)].
Proof. reflexivity. Qed.

(** C8 as stated fails at [k = 0]: no transition is asked for, and the
    call raises instead of returning none. *)
Lemma sample_zero_raises :
  0 ≤ size (put_all (ReplayMemory_init 3) (Toy.nth_put <$> [1; 2; 3])) ∧
  sample (put_all (ReplayMemory_init 3) (Toy.nth_put <$> [1; 2; 3])) 0 0
  = Raise TypeError.
Proof. split; [lia|reflexivity]. Qed.

(** C8 on a memory of three transitions: two are sampled; four and none
    are refused. *)
Lemma sample_without_replacement_of_three :
  let r := put_all (ReplayMemory_init 3) (Toy.nth_put <$> [1; 2; 3]) in
  (∃ ts idx g',
     sample r 2 0 = Ok (columns ts, g') ∧
     length ts = 2 ∧ length idx = 2 ∧ NoDup idx ∧
     Forall2 (λ i t, items (memory r) !! i = Some t) idx ts) ∧
  sample r 4 0 = Raise ValueError ∧
  sample r 0 0 = Raise TypeError.
Proof.
  intros r. split_and!.
  - apply (proj1 (sample_without_replacement r 2 0)). vm_compute. lia.
  - apply (proj1 (proj2 (sample_without_replacement r 4 0))). vm_compute. lia.
  - apply (proj2 (proj2 (sample_without_replacement r 0 0))). reflexivity.
Defined.

(** ** The frame buffer *)

Section BufferFacts.
Context {A : Type}.
Implicit Types (d : deque A) (x : A) (xs : list A).

Lemma items_fill (n k : nat) x :
  k ≤ n →
  items (Nat.iter k (λ d, deque_append d x) (deque_new n)) = replicate k x ∧
  maxlen (Nat.iter k (λ d, deque_append d x) (deque_new n)) = n.
Proof.
  induction k as [|k IH]; intros Hk; [done|].
  destruct IH as [Hitems Hmax]; [lia|]. rewrite Nat.iter_succ.
  split; [|by rewrite maxlen_append].
  rewrite items_append_room by (rewrite Hitems, Hmax, length_replicate; lia).
  rewrite Hitems. symmetry. apply replicate_S_end.
Qed.

(** pushes on a full deque: the window slides over the history *)
Lemma items_slide d xs :
  length (items d) = maxlen d →
  items (foldl deque_append d xs) = drop (length xs) (items d ++ xs) ∧
  length (items (foldl deque_append d xs)) = maxlen d.
Proof.
  revert d. induction xs as [|x xs IH]; intros d Hfull.
  { simpl. by rewrite app_nil_r. }
  simpl foldl.
  assert (items (deque_append d x) = drop 1 (items d ++ [x])) as Hstep
    by (by apply items_append_full).
  destruct (IH (deque_append d x)) as [Hitems Hlen].
  { rewrite Hstep, length_drop, length_app. simpl. lia. }
  rewrite maxlen_append in Hlen. split; [|done].
  rewrite Hitems, Hstep.
  rewrite <- (drop_app_le (items d ++ [x]) xs 1)
    by (rewrite length_app; simpl; lia).
  rewrite drop_drop, <- app_assoc. done.
Qed.
End BufferFacts.

(** ** Agent: the frame buffer *)

Section AgentBuffer.
Context {F Rng G Screen Frame T OptState : Type}.
Context `{Num F} `{Random Rng F} `{Gym G Screen F} `{Vision Screen Frame}.
Context `{Inhabited T} `{Torch T F Frame OptState}.
Implicit Types (a : Agent F Rng G Frame T OptState).

Lemma add_states_buffer a (xs : list Frame) :
  foldl add_state a xs
  = set_state_buffer a (foldl deque_append (_state_buffer a) xs).
Proof.
  revert a. induction xs as [|x xs IH]; intros a; [by destruct a|].
  simpl. by rewrite IH.
Qed.

Lemma iter_add_state (k : nat) a (x : Frame) :
  Nat.iter k (λ a, add_state a x) a
  = set_state_buffer a (Nat.iter k (λ d, deque_append d x) (_state_buffer a)).
Proof.
  induction k as [|k IH]; [by destruct a|].
  rewrite !Nat.iter_succ, IH. done.
Qed.

Lemma np_stack_replicate {A} (n : nat) (x : A) :
  n ≠ 0 → np_stack (replicate n x) = Ok (replicate n x).
Proof. by destruct n. Qed.

Lemma get_initial_states_eq a :
  get_initial_states a
  = if decide (action_repeat a = 0) then Raise ValueError
    else Ok (replicate (action_repeat a) (first_frame a),
             set_state_buffer (set_env a (env_reset (Frame := Frame) (env a)).2)
               (Nat.iter (action_repeat a)
                  (λ d, deque_append d (first_frame a))
                  (deque_new (action_repeat a)))).
Proof.
  unfold get_initial_states, first_frame.
  destruct (env_reset (env a)) as [o e]. simpl.
  destruct (decide _) as [->|Hn]; [done|].
  rewrite np_stack_replicate by done. simpl.
  by rewrite iter_add_state.
Qed.

(** C7. When [get_initial_states] has returned, the frame buffer holds
    [action_repeat] copies of the first frame of the episode; after any
    number of further [add_state] calls it still holds exactly
    [action_repeat] frames, namely the last ones of the history, in the
    order of their arrival; and one more push drops the oldest frame
    and puts the new one behind the others. *)
Theorem frame_buffer_window a a' (states : NpState) (pushes : list Frame) :
  get_initial_states a = Ok (states, a') →
  states = replicate (action_repeat a) (first_frame a) ∧
  items (_state_buffer a') = replicate (action_repeat a) (first_frame a) ∧
  length (items (_state_buffer (foldl add_state a' pushes))) = action_repeat a ∧
  items (_state_buffer (foldl add_state a' pushes))
  = drop (length pushes) (replicate (action_repeat a) (first_frame a) ++ pushes) ∧
  ∀ x, items (_state_buffer (add_state (foldl add_state a' pushes) x))
       = drop 1 (items (_state_buffer (foldl add_state a' pushes))) ++ [x].
Proof.
  rewrite get_initial_states_eq.
  destruct (decide _) as [|Hn]; [done|]. intros [= <- <-].
  destruct (items_fill (action_repeat a) (action_repeat a) (first_frame a))
    as [Hitems Hmax]; [done|].
  set (b0 := Nat.iter _ _ _) in *.
  assert (length (items b0) = maxlen b0) as Hfull
    by (by rewrite Hitems, Hmax, length_replicate).
  destruct (items_slide b0 pushes Hfull) as [Hslide Hlen].
  rewrite add_states_buffer. cbn [_state_buffer set_state_buffer set_env].
  rewrite Hitems in Hslide. rewrite Hmax in Hlen.
  split_and!; try done.
  intros x. unfold add_state. cbn [_state_buffer set_state_buffer].
  rewrite items_append_full by (by rewrite Hlen, maxlen_appends).
  rewrite drop_app_le; [done|]. rewrite Hlen. lia.
Qed.
End AgentBuffer.

(** ** The parameter store: copies share nothing *)

Section StoreFacts.
Context {T : Type} `{Inhabited T}.
Implicit Types (h : gmap loc T) (memo : gmap loc loc) (ls : list loc).

Lemma deepcopy_params_spec (old : gset loc) ls h memo h' memo' ls' :
  deepcopy_params h memo ls = (h', memo', ls') →
  old ⊆ dom h → memo_ok old h memo → Forall (λ l, l ∈ old) ls →
  (∀ l, l ∈ dom h → h' !!! l = h !!! l) ∧
  Forall2 (λ l l', (l' ∉ old) ∧ h' !!! l' = h !!! l) ls ls'.
Proof.
  revert h memo h' memo' ls'.
  induction ls as [|l ls IHls]; intros h memo h' memo' ls' Hcopy Hold Hmemo Hls.
  { simpl in Hcopy. by simplify_eq. }
  apply Forall_cons in Hls as [Hl Hls]. simpl in Hcopy.
  destruct (memo !! l) as [l'|] eqn:Hlook.
  - destruct (deepcopy_params h memo ls) as [[h1 memo1] ls1] eqn:Htail.
    simplify_eq.
    destruct (IHls _ _ _ _ _ Htail Hold Hmemo Hls) as [Hframe Hall].
    split; [done|]. constructor; [|done].
    destruct (Hmemo _ _ Hlook) as (_ & Hin & Hnew & Hval).
    split; [done|]. by rewrite Hframe.
  - pose proof (is_fresh (dom h)) as Hfresh.
    remember (fresh (dom h)) as l' eqn:Hl'. clear Hl'.
    destruct (deepcopy_params (<[l':=(h !!! l)]> h) (<[l:=l']> memo) ls)
      as [[h1 memo1] ls1] eqn:Htail.
    simplify_eq.
    assert (∀ x, x ∈ dom h → (<[l':=(h !!! l)]> h) !!! x = h !!! x) as Hsame.
    { clear IHls. intros x Hx. apply lookup_total_insert_ne. set_solver. }
    assert (old ⊆ dom (<[l':=(h !!! l)]> h)) as Hold1
      by (clear IHls; rewrite dom_insert_L; set_solver).
    assert (memo_ok old (<[l':=(h !!! l)]> h) (<[l:=l']> memo)) as Hmemo1.
    { clear IHls. intros k k' Hk. rewrite dom_insert_L.
      destruct (decide (l = k)) as [->|Hne].
      - rewrite lookup_insert_eq in Hk. simplify_eq.
        split_and!; [set_solver|set_solver|set_solver|].
        rewrite lookup_total_insert_eq. symmetry. apply Hsame. set_solver.
      - rewrite lookup_insert_ne in Hk by done.
        destruct (Hmemo _ _ Hk) as (Hk1 & Hk2 & Hk3 & Hk4).
        split_and!; [set_solver|set_solver|done|].
        by rewrite !Hsame. }
    destruct (IHls _ _ _ _ _ Htail Hold1 Hmemo1 Hls) as [Hframe Hall].
    clear IHls.
    split.
    + intros x Hx. rewrite Hframe; [by apply Hsame|].
      rewrite dom_insert_L. set_solver.
    + constructor.
      * split; [set_solver|].
        rewrite Hframe by (rewrite dom_insert_L; set_solver).
        apply lookup_total_insert_eq.
      * apply Forall2_same_length_lookup_2; [by eapply Forall2_length|].
        intros i x y Hx Hy.
        destruct (Forall2_lookup_lr _ _ _ _ _ _ Hall Hx Hy) as [Hnew Hval].
        split; [done|]. rewrite Hval. apply Hsame.
        apply Hold. rewrite Forall_lookup in Hls. by eapply Hls.
Qed.
End StoreFacts.

(** case analysis on the first call that can raise in [H] *)
Tactic Notation "case_bind" hyp(H) "as" simple_intropattern(p) "eqn" ident(E) :=
  match type of H with
  | context [mbind _ ?m] =>
    lazymatch m with
    | context [mbind] => fail
    | _ =>
      destruct m as [p|?] eqn:E; cbn [mbind Result_bind] in H;
      [|discriminate H]
    end
  end.

Section TargetFacts.
Context {F Rng G Screen Frame T OptState : Type}.
Context `{Num F} `{Random Rng F} `{Gym G Screen F} `{Vision Screen Frame}.
Context `{Inhabited T} `{Torch T F Frame OptState}.
Implicit Types (a : Agent F Rng G Frame T OptState) (h : gmap loc T).

Lemma store_all_other h (ls : list loc) (vs : list T) (x : loc) :
  x ∉ ls → store_all h ls vs !!! x = h !!! x.
Proof.
  revert h vs. induction ls as [|l ls IH]; intros h vs Hx; [done|].
  destruct vs as [|v vs]; [done|]. simpl.
  apply not_elem_of_cons in Hx as [Hne Hx].
  rewrite IH by done. by apply lookup_total_insert_ne.
Qed.

Lemma deepcopy_values h (net : DQN) h' (net' : DQN) :
  deepcopy h net = (h', net') →
  Forall (λ l, l ∈ dom h) (parameters net) →
  n_action net' = n_action net ∧
  values h' net' = values h net ∧
  values h' net = values h net ∧
  Forall (λ l, l ∉ dom h) (parameters net').
Proof.
  unfold deepcopy. intros Hcopy Hdom.
  destruct (deepcopy_params h ∅ (parameters net)) as [[h1 memo] ls'] eqn:Hparams.
  simplify_eq. simpl.
  destruct (deepcopy_params_spec (dom h) _ _ _ _ _ _ Hparams) as [Hframe Hall];
    [done|by intros ???|done|].
  unfold values. simpl. split_and!; [done|..].
  - apply list_eq_Forall2, Forall2_fmap.
    eapply Forall2_flip, Forall2_impl; [done|]. by intros ?? [_ ?].
  - apply list_fmap_ext. intros i l Hl. apply Hframe.
    rewrite Forall_lookup in Hdom. by eapply Hdom.
  - apply Forall_lookup_2. intros i l' Hl'.
    destruct (Forall2_lookup_r _ _ _ _ _ Hall Hl') as (l & _ & Hnew & _). done.
Qed.

Lemma alloc_all_dom h (vs : list T) h' (ls : list loc) :
  alloc_all h vs = (h', ls) →
  dom h ⊆ dom h' ∧ Forall (λ l, l ∈ dom h') ls.
Proof.
  revert h h' ls. induction vs as [|v vs IH]; intros h h' ls Halloc.
  { simpl in Halloc. by simplify_eq. }
  simpl in Halloc.
  destruct (alloc_all (<[fresh (dom h):=v]> h) vs) as [h1 ls1] eqn:Htail.
  simplify_eq. apply IH in Htail as [Hsub Hall]. clear IH.
  rewrite dom_insert_L in Hsub. split; [set_solver|].
  constructor; [set_solver|done].
Qed.

Lemma deepcopy_params_dom h (memo : gmap loc loc) (ls : list loc) h' memo' ls' :
  deepcopy_params h memo ls = (h', memo', ls') → dom h ⊆ dom h'.
Proof.
  revert h memo h' memo' ls'.
  induction ls as [|l ls IH]; intros h memo h' memo' ls' Hcopy.
  { simpl in Hcopy. by simplify_eq. }
  simpl in Hcopy. destruct (memo !! l) as [l'|].
  - destruct (deepcopy_params h memo ls) as [[h1 memo1] ls1] eqn:Htail.
    simplify_eq. by eapply IH.
  - destruct (deepcopy_params _ _ ls) as [[h1 memo1] ls1] eqn:Htail.
    simplify_eq. apply IH in Htail. clear IH.
    rewrite dom_insert_L in Htail. set_solver.
Qed.

(** the agent built by [__init__] is in a state from which [train]
    starts: an empty replay memory, allocated online parameters, no
    recorded play length *)
Lemma Agent_init_ok (g : G) (n k : nat) (θ0 : list T) (o : OptState) (seed : Rng) a :
  a = Agent_init g n k θ0 o seed →
  replay_ok a ∧
  Forall (λ l, l ∈ dom (heap a)) (parameters (dqn a)) ∧
  items (_play_steps a) = [] ∧
  action_repeat a = n ∧
  frame_skipping a = k.
Proof.
  intros ->. unfold Agent_init.
  destruct (alloc_all ∅ θ0) as [h ls] eqn:Halloc.
  destruct (deepcopy h _) as [h' tgt] eqn:Hcopy.
  apply alloc_all_dom in Halloc as [_ Hls].
  unfold deepcopy in Hcopy. cbn [parameters] in Hcopy.
  destruct (deepcopy_params h ∅ ls) as [[h1 memo] ls'] eqn:Hparams.
  apply deepcopy_params_dom in Hparams. simplify_eq.
  cbn. split_and!; try done.
  eapply Forall_impl; [done|]. set_solver.
Qed.

(** what [optimize] leaves of the agent: only the generator, the
    optimizer state and the values stored at the online parameters
    change *)
Lemma optimize_frame (gamma : F) a out a' :
  optimize gamma a = Ok (out, a') →
  ∃ g θ' o,
    a' = set_online (set_rng a g)
           (store_all (heap a) (parameters (dqn a)) θ') o.
Proof.
  unfold optimize. intros Hopt.
  case_bind Hopt as [transitions g] eqn Hsample.
  case_bind Hopt as state_batch eqn Hview.
  case_bind Hopt as [[rb tv] targets] eqn Htargets.
  destruct (rmsprop_step _ _ _) as [o θ'] eqn:Hstep in Hopt.
  simplify_eq. by eexists _, _, _.
Qed.

(** C5. After [_target_update] the target parameters hold the values
    of the online parameters, element by element; assigning any new
    values to the online parameters in place, as a later [optimize]
    does, leaves the values of the target parameters as they were. *)
Theorem target_update_independent a :
  Forall (λ l, l ∈ dom (heap a)) (parameters (dqn a)) →
  dqn (_target_update a) = dqn a ∧
  values (heap (_target_update a)) (target (_target_update a))
  = values (heap (_target_update a)) (dqn (_target_update a)) ∧
  values (heap (_target_update a)) (dqn (_target_update a))
  = values (heap a) (dqn a) ∧
  (∀ θ' : list T,
     values (store_all (heap (_target_update a))
               (parameters (dqn (_target_update a))) θ')
       (target (_target_update a))
     = values (heap (_target_update a)) (target (_target_update a))) ∧
  (∀ (gamma : F) out a',
     optimize gamma (_target_update a) = Ok (out, a') →
     target a' = target (_target_update a) ∧
     values (heap a') (target a')
     = values (heap (_target_update a)) (target (_target_update a))).
Proof.
  intros Hdom. unfold _target_update.
  destruct (deepcopy (heap a) (dqn a)) as [h' t'] eqn:Hcopy.
  destruct (deepcopy_values _ _ _ _ Hcopy Hdom) as (_ & Hvals & Hsame & Hnew).
  assert (∀ θ' : list T,
            values (store_all h' (parameters (dqn a)) θ') t' = values h' t')
    as Hkeep.
  { intros θ'. apply list_fmap_ext. intros i l Hl.
    apply store_all_other. intros Hin.
    rewrite Forall_lookup in Hnew. apply (Hnew _ _ Hl).
    rewrite Forall_forall in Hdom. by apply Hdom. }
  cbn [dqn target heap set_target]. split_and!; try done.
  - by rewrite Hvals, Hsame.
  - intros gamma out a' Hopt.
    apply optimize_frame in Hopt as (g & θ' & o & ->).
    cbn [dqn target heap set_target set_online set_rng]. split; [done|].
    apply Hkeep.
Qed.
End TargetFacts.

(** ** The exploration schedule over the real numbers *)

Section Schedule.
Context {Rng G Screen Frame T OptState : Type}.
Context `{Random Rng R} `{Gym G Screen R} `{Inhabited T} `{Torch T R Frame OptState}.
Implicit Types (a : Agent R Rng G Frame T OptState).

Lemma exp_le (x y : R) : (x <= y)%R → (exp x <= exp y)%R.
Proof.
  intros [Hlt| ->]; [|apply Rle_refl].
  left. by apply exp_increasing.
Qed.


End Schedule.


(** ** Batches *)

Section BatchFacts.
Context {F : Type} `{Num F}.





End BatchFacts.

(** ** Agent: one optimisation step *)

Section OptimizeFacts.
Context {F Rng G Screen Frame T OptState : Type}.
Context `{Num F} `{Random Rng F} `{Gym G Screen F} `{Vision Screen Frame}.
Context `{Inhabited T} `{Torch T F Frame OptState}.
Implicit Types (a : Agent F Rng G Frame T OptState).
Implicit Types (ts : list (Stored F (list Frame) nat)).




End OptimizeFacts.

(** ** Agent: the training loop *)

Section TrainFacts.
Context {F Rng G Screen Frame T OptState : Type}.
Context `{Num F} `{Random Rng F} `{Gym G Screen F} `{Vision Screen Frame}.
Context `{Inhabited T} `{Torch T F Frame OptState}.
Implicit Types (a : Agent F Rng G Frame T OptState).
Implicit Types (s : Loop F Rng G Frame T OptState).

(** [select_action] assigns [epsilon] and advances the generator *)
Lemma select_action_frame a (st : list Frame) act a' :
  select_action a st = Ok (act, a') →
  ∃ g, a' = set_rng (set_epsilon a (epsilon_at (step a) (play_step a))) g.
Proof.
  unfold select_action. destruct (random _) as [u g].
  cbn [epsilon set_epsilon set_rng rng].
  destruct (fgt _ u).
  - destruct (space_sample _ _) as [act' g'] eqn:Hs. intros [= <- <-].
    by exists g'.
  - intros Hsel. case_bind Hsel as act' eqn Hact. simplify_eq. by exists g.
Qed.


(** the frame-skip loop touches the simulator and the frame buffer,
    where it pushes the screens it has seen *)
Lemma frame_skip_frame (n act : nat) a last a' last' :
  frame_skip n act a last = (a', last') →
  ∃ e frames,
    a' = set_state_buffer (set_env a e)
           (foldl deque_append (_state_buffer a) frames).
Proof.
  revert a last. induction n as [|n IH]; intros a last Hskip.
  { simpl in Hskip. injection Hskip as <- <-. exists (env a), [].
    by destruct a. }
  simpl in Hskip.
  destruct (env_step (env a) act) as [[[o r] d] e] eqn:Hstep.
  destruct d.
  - simplify_eq. by exists e, [get_screen e].
  - apply IH in Hskip as (e' & frames & ->).
    by exists e', (get_screen e :: frames).
Qed.

(** the values of [reward] and [done] after the loop: those of the
    last executed simulator step, or the old ones when no step was
    executed *)
Lemma frame_skip_last (n act : nat) a prev :
  (frame_skip n act a prev).2
  = match last (skip_trace n act (env a)) with
    | Some x => Some x
    | None => prev
    end.
Proof.
  revert a prev. induction n as [|n IH]; intros a prev; [done|].
  simpl. destruct (env_step (env a) act) as [[[o r] d] e] eqn:Hstep.
  destruct d; [done|].
  rewrite IH. cbn [env add_state set_state_buffer set_env].
  destruct (skip_trace n act e) as [|x xs]; [done|].
  rewrite last_cons_cons.
  destruct (last (x :: xs)) eqn:Hl; [done|]. by apply last_None in Hl.
Qed.

(** what every completed pass through the body of the inner loop has
    done *)
Lemma train_step_inv (gamma : F) s s' (stop : bool) :
  train_step gamma s = Ok (s', stop) →
  ∃ act a1 r,
    select_action (agent s) (states s) = Ok (act, a1) ∧
    match last (skip_trace (frame_skipping (agent s)) act (env (agent s))) with
    | Some x => Some x
    | None => last_step (locals s)
    end = Some (r, stop) ∧
    memory (replay (agent s'))
    = memory (put (replay (agent s)) (states s) act r (states s')) ∧
    _play_steps (agent s') = _play_steps (agent s) ∧
    (stop = true →
     step (agent s') = step (agent s) ∧ play_steps s' = play_steps s) ∧
    action_repeat (agent s') = action_repeat (agent s) ∧
    (∃ frames,
       _state_buffer (agent s')
       = foldl deque_append (_state_buffer (agent s)) frames) ∧
    states s' = items (_state_buffer (agent s')) ∧
    (_available (replay (agent s')) = true →
     _available (replay (agent s)) = true ∨ BATCH_SIZE < size (replay (agent s'))).
Proof.
  unfold train_step. intros Hstep.
  case_bind Hstep as [act a1] eqn Hsel.
  destruct (select_action_frame _ _ _ _ Hsel) as [g Ha1].
  pose proof (frame_skip_last (frame_skipping a1) act a1 (last_step (locals s)))
    as Hlast.
  destruct (frame_skip _ act a1 _) as [a2 prev] eqn:Hskip.
  destruct (frame_skip_frame _ _ _ _ _ _ Hskip) as (e & frames & Ha2).
  destruct prev as [[r d]|]; [|done].
  exists act, a1, r.
  destruct (is_available _) as [avail r'] eqn:Hav.
  assert (memory r' = memory (put (replay a2) (states s) act r (recent_states a2)) ∧
          (_available r' = true →
           _available (replay a2) = true ∨ BATCH_SIZE < size r'))
    as [Hmem Hlatch].
  { revert Hav. unfold is_available. cbn [replay set_replay].
    destruct (_available _) eqn:Hold.
    { intros [= _ <-]. split; [done|]. intros _. by left. }
    destruct (decide _) as [Hlt|_]; intros [= _ <-].
    - split; [done|]. intros _. by right.
    - split; [done|]. congruence. }
  assert (replay a2 = replay (agent s) ∧ step a2 = step (agent s) ∧
          _play_steps a2 = _play_steps (agent s) ∧
          frame_skipping a1 = frame_skipping (agent s) ∧
          env a1 = env (agent s) ∧
          action_repeat a2 = action_repeat (agent s) ∧
          _state_buffer a2
          = foldl deque_append (_state_buffer (agent s)) frames)
    as (Hr & Hs & Hp & Hf & He & Hrep & Hbuf) by (by subst).
  rewrite Hr in Hmem, Hlatch. rewrite Hf, He in Hlast. simpl in Hlast.
  assert (∃ frames',
            _state_buffer a2
            = foldl deque_append (_state_buffer (agent s)) frames') as Hframes
    by (by exists frames).
  clear Ha1 Ha2 Hskip.
  destruct avail.
  - case_bind Hstep as [[[[loss rs] qm] tm] a3] eqn Hopt.
    apply optimize_frame in Hopt as (g' & θ' & o & ->).
    destruct d.
    + injection Hstep as <- <-. by split_and!.
    + repeat (destruct (decide _) in Hstep); injection Hstep as <- <-;
        unfold _target_update, save_checkpoint;
        repeat (destruct (deepcopy _ _)); by split_and!.
  - cbn [mbind Result_bind] in Hstep.
    destruct d.
    + injection Hstep as <- <-. by split_and!.
    + repeat (destruct (decide _) in Hstep); injection Hstep as <- <-;
        unfold _target_update, save_checkpoint;
        repeat (destruct (deepcopy _ _)); by split_and!.
Qed.

Lemma is_available_true (r r' : ReplayMemory F (list Frame) nat) :
  is_available r = (true, r') →
  (_available r = true → BATCH_SIZE < size r) →
  BATCH_SIZE < size r' ∧ memory r' = memory r.
Proof.
  unfold is_available, size. destruct (_available r) eqn:Hav.
  { intros [= <-] Hlatch. auto. }
  destruct (decide _) as [Hlt|Hge]; simpl; [|by rewrite Hav].
  by intros [= <-] _.
Qed.

(** the invariant of the inner loop is kept by every completed pass *)
Lemma train_step_loop_ok (gamma : F) s s' (stop : bool) :
  loop_ok s → train_step gamma s = Ok (s', stop) → loop_ok s'.
Proof.
  intros ([Hshape Hlatch] & Hst & Hlen & Hmax) Hstep.
  destruct (train_step_inv _ _ _ _ Hstep)
    as (act & a1 & r & _ & _ & Hmem & _ & _ & Hrep & [frames Hbuf] & Hstates & Hav).
  destruct (items_slide (_state_buffer (agent s)) frames) as [_ Hfull];
    [by rewrite Hlen, Hmax|].
  rewrite <- Hbuf, Hmax in Hfull.
  assert (len (memory (replay (agent s))) ≤ len (memory (replay (agent s'))))
    as Hgrow by (unfold NpState in *; rewrite Hmem; apply len_append_mono).
  unfold loop_ok, replay_ok. rewrite Hrep, Hstates, Hfull.
  split_and!; try done.
  - unfold NpState in *. rewrite Hmem. apply Forall_forall.
    intros t [Ht| ->]%elem_of_append.
    + rewrite Forall_forall in Hshape. by apply Hshape.
    + split_and!; [done| |done]. cbn [next_state FloatTensor].
      by rewrite Hstates.
  - intros [Hold|Hnew]%Hav; [|done].
    eapply Nat.lt_le_trans; [by apply Hlatch|done].
  - by rewrite Hbuf, maxlen_appends.
Qed.

(** [get_initial_states] establishes the invariant of the inner loop *)
Lemma get_initial_states_loop_ok a (st : list Frame) a' (l : Locals F) :
  replay_ok a → get_initial_states a = Ok (st, a') →
  loop_ok (mkLoop a' st [] false false 0 l).
Proof.
  intros Hreplay. rewrite get_initial_states_eq.
  destruct (decide _) as [|Hn]; [done|]. intros [= <- <-].
  destruct (items_fill (action_repeat a) (action_repeat a) (first_frame a))
    as [Hitems Hmax]; [done|].
  unfold loop_ok.
  cbn [agent states action_repeat _state_buffer set_state_buffer set_env].
  rewrite Hitems, Hmax, !length_replicate. by split_and!.
Qed.

Lemma skip_trace_nonempty (n act : nat) (e : Environment G) :
  n ≠ 0 → skip_trace n act e ≠ [].
Proof.
  destruct n as [|n]; [done|]. intros _. simpl.
  by destruct (env_step e act) as [[[o r] d] e'].
Qed.

(** C10. In every completed inner step of [train] with at least one
    frame-skip substep, the reward handed to [put] is the reward that
    the last executed [env.step] of the frame-skip loop returned (the
    rewards of the earlier substeps do not enter it), and the loop is
    left exactly when that step reported [done]. *)
Theorem stored_reward_is_last_substep (gamma : F) s s' (stop : bool) :
  train_step gamma s = Ok (s', stop) →
  frame_skipping (agent s) ≠ 0 →
  ∃ act a1 r,
    select_action (agent s) (states s) = Ok (act, a1) ∧
    last (skip_trace (frame_skipping (agent s)) act (env (agent s)))
    = Some (r, stop) ∧
    memory (replay (agent s'))
    = memory (put (replay (agent s)) (states s) act r (states s')).
Proof.
  intros Hstep Hfs.
  destruct (train_step_inv _ _ _ _ Hstep) as (act & a1 & r & Hsel & Hlast & Hmem & _).
  exists act, a1, r. split_and!; [done| |done].
  pose proof (skip_trace_nonempty _ act (env (agent s)) Hfs) as Hne.
  apply last_is_Some in Hne as [x Hx]. by rewrite Hx in Hlast |- *.
Qed.

End TrainFacts.

(** ** The first episode in binary64 arithmetic *)

Section FirstEpisode.
Variable libm_exp : spec_float → spec_float.
#[local] Instance ieee : Num spec_float := Binary64 libm_exp.

Context {Rng G Screen Frame T OptState : Type}.
Context `{Random Rng spec_float} `{Gym G Screen spec_float} `{Vision Screen Frame}.
Context `{Inhabited T} `{Torch T spec_float Frame OptState}.
Implicit Types (a : Agent spec_float Rng G Frame T OptState).

Lemma SFadd_nan_r (x : spec_float) : SFadd prec64 emax64 x S754_nan = S754_nan.
Proof. by destruct x. Qed.

Lemma SFltb_nan_r (x : spec_float) : SFltb x S754_nan = false.
Proof. by destruct x. Qed.

(** the mean of no number is 0/0 *)
Lemma np_mean_empty : np_mean [] = S754_nan.
Proof. reflexivity. Qed.

Lemma epsilon_at_nan (n : Z) : epsilon_at n S754_nan = S754_nan.
Proof.
  unfold epsilon_at. cbn [fadd fdiv of_int ieee Binary64].
  change (SFadd prec64 emax64 (binary_normalize prec64 emax64 1 0 false) S754_nan)
    with S754_nan.
  change (SFdiv prec64 emax64 (binary_normalize prec64 emax64 5 0 false) S754_nan)
    with S754_nan.
  apply SFadd_nan_r.
Qed.

(** C9. While [_play_steps] is empty, that is until the first episode
    has ended, [play_step] is NaN, so is the epsilon that
    [select_action] computes, the comparison with the random number is
    false whatever that number is, and [select_action] returns the
    action of the greedy branch; no inner step of [train] adds to
    [_play_steps]. *)
Theorem select_action_first_episode a (st : list Frame) :
  items (_play_steps a) = [] →
  play_step a = S754_nan ∧
  epsilon_at (step a) (play_step a) = S754_nan ∧
  (∀ u, fgt (epsilon_at (step a) (play_step a)) u = false) ∧
  select_action a st
  = (let a1 := set_rng (set_epsilon a S754_nan) (random (rng a)).2 in
     act ← greedy_action a1 st; Ok (act, a1)) ∧
  ∀ gamma s s' stop,
    agent s = a → train_step gamma s = Ok (s', stop) →
    items (_play_steps (agent s')) = [].
Proof.
  intros Hempty.
  assert (play_step a = S754_nan) as Hplay
    by (unfold play_step; rewrite Hempty; apply np_mean_empty).
  assert (epsilon_at (step a) (play_step a) = S754_nan) as Heps
    by (rewrite Hplay; apply epsilon_at_nan).
  split_and!; [done|done| | |].
  - intros u. rewrite Heps. apply SFltb_nan_r.
  - unfold select_action. rewrite Heps.
    cbn [epsilon set_epsilon set_rng rng].
    destruct (random (rng a)) as [u g]. cbn [snd].
    change (fgt S754_nan u) with (SFltb u S754_nan).
    by rewrite SFltb_nan_r.
  - intros gamma s s' stop <- Hstep.
    destruct (train_step_inv _ _ _ _ Hstep) as (_ & _ & _ & _ & _ & _ & -> & _).
    done.
Qed.
End FirstEpisode.

(** ** The targets of [optimize] over the real numbers *)

Section Targets.
Context {Rng G Screen Frame T OptState : Type}.
Context `{Random Rng R} `{Gym G Screen R} `{Vision Screen Frame}.
Context `{Inhabited T} `{Torch T R Frame OptState}.
Implicit Types (a : Agent R Rng G Frame T OptState).
Implicit Types (ts : list (Stored R (list Frame) nat)).

Lemma Rgtb_true (x y : R) : Rgtb x y = true → (y < x)%R.
Proof. unfold Rgtb. by destruct (Rgt_dec x y). Qed.

Lemma Rgtb_false (x y : R) : Rgtb x y = false → (x <= y)%R.
Proof. unfold Rgtb. destruct (Rgt_dec x y); [done|]. intros _. lra. Qed.



End Targets.

(** ** The properties on the small instances *)

(** C7: four copies of the first screen, then two pushes. *)
Lemma frame_buffer_window_one_shot :
  ∃ st a',
    get_initial_states (@Toy.one_shot_agent spec_float _) = Ok (st, a') ∧
    items (_state_buffer (foldl add_state a' [5; 6])) = [0; 0; 5; 6].
Proof.
  eexists _, _. split; [reflexivity|].
  exact (proj1 (proj2 (proj2 (proj2
    (frame_buffer_window (@Toy.one_shot_agent spec_float _) _ _ [5; 6] eq_refl))))).
Defined.

(** C5: the target of the new agent after an update. *)
Lemma target_update_independent_one_shot :
  Forall (λ l, l ∈ dom (heap (@Toy.one_shot_agent spec_float _)))
    (parameters (dqn (@Toy.one_shot_agent spec_float _))) ∧
  ∀ θ' : list Z,
    values (store_all (heap (_target_update (@Toy.one_shot_agent spec_float _)))
              (parameters (dqn (_target_update (@Toy.one_shot_agent spec_float _)))) θ')
      (target (_target_update (@Toy.one_shot_agent spec_float _)))
    = values (heap (_target_update (@Toy.one_shot_agent spec_float _)))
        (target (_target_update (@Toy.one_shot_agent spec_float _))).
Proof.
  assert (Forall (λ l, l ∈ dom (heap (@Toy.one_shot_agent spec_float _)))
            (parameters (dqn (@Toy.one_shot_agent spec_float _)))) as Hdom.
  { apply (bool_decide_unpack _). vm_compute. exact I. }
  split; [exact Hdom|].
  apply (target_update_independent (@Toy.one_shot_agent spec_float _) Hdom).
Defined.


(** C10: on the simulator that ends at its third step with the rewards
    1, 2 and 3, the first inner step stores the reward 3. *)
Lemma stored_reward_is_last_substep_three_steps :
  ∃ s' act,
    train_step Toy.gamma Toy.three_steps_start = Ok (s', true) ∧
    frame_skipping (agent Toy.three_steps_start) ≠ 0 ∧
    last (skip_trace (frame_skipping (agent Toy.three_steps_start)) act
            (env (agent Toy.three_steps_start))) = Some (of_int 3, true) ∧
    memory (replay (agent s'))
    = memory (put (replay (agent Toy.three_steps_start))
                (states Toy.three_steps_start) act (of_int 3) (states s')).
Proof.
  assert (match train_step Toy.gamma Toy.three_steps_start with
          | Ok (_, stop) => stop = true
          | Raise _ => False
          end) as Hrun by (vm_compute; reflexivity).
  assert (frame_skipping (agent Toy.three_steps_start) ≠ 0) as Hfs
    by (vm_compute; discriminate).
  assert (∀ act,
            last (skip_trace (frame_skipping (agent Toy.three_steps_start)) act
                    (env (agent Toy.three_steps_start)))
            = Some (of_int 3, true)) as Htrace
    by (intros act; vm_compute; reflexivity).
  destruct (train_step Toy.gamma Toy.three_steps_start) as [[s' stop]|e] eqn:Hstep;
    [|destruct Hrun].
  subst stop.
  destruct (stored_reward_is_last_substep Toy.gamma Toy.three_steps_start
              s' true Hstep Hfs) as (act & a1 & r & _ & Hlast & Hmem).
  rewrite Htrace in Hlast. injection Hlast as <-.
  exists s', act. split; [reflexivity|].
  split; [exact Hfs|]. split; [apply Htrace|exact Hmem].
Defined.

(** C9: the new agent, whose [_play_steps] is empty. *)
Lemma select_action_first_episode_one_shot :
  items (_play_steps (@Toy.one_shot_agent spec_float _)) = [] ∧
  play_step (@Toy.one_shot_agent spec_float _) = S754_nan ∧
  ∀ u, fgt (epsilon_at (step (@Toy.one_shot_agent spec_float _))
              (play_step (@Toy.one_shot_agent spec_float _))) u = false.
Proof.
  assert (items (_play_steps (@Toy.one_shot_agent spec_float _)) = []) as Hempty
    by reflexivity.
  split; [exact Hempty|].
  destruct (select_action_first_episode Toy.exp_at_zero
              (@Toy.one_shot_agent spec_float _) [] Hempty) as (Hplay & _ & Hcmp & _).
  split; [exact Hplay|exact Hcmp].
Defined.


(** * Further properties *)

(** ** The training loop as a whole *)

Section TrainRun.
Context {F Rng G Screen Frame T OptState : Type}.
Context `{Num F} `{Random Rng F} `{Gym G Screen F} `{Vision Screen Frame}.
Context `{Inhabited T} `{Torch T F Frame OptState}.
Implicit Types (a : Agent F Rng G Frame T OptState).
Implicit Types (s : Loop F Rng G Frame T OptState).

(** every field that a completed pass through the body of the inner
    loop writes: [tu] and [ck] tell whether the pass updated the target
    and wrote a checkpoint, [h1] is the store when [optimize] is done *)
Lemma train_step_effect (gamma : F) s s' (stop : bool) :
  train_step gamma s = Ok (s', stop) →
  ∃ (tu ck : bool) (h1 : gmap loc T),
    frame_skipping (agent s') = frame_skipping (agent s) ∧
    dqn (agent s') = dqn (agent s) ∧
    step (agent s') = (if stop then step (agent s) else step (agent s) + 1)%Z ∧
    play_steps s' = (if stop then play_steps s else play_steps s + 1)%Z ∧
    (tu = true ↔ stop = false ∧ (step (agent s') `mod` TARGET_UPDATE_INTERVAL = 0)%Z) ∧
    (ck = true ↔ stop = false ∧ (step (agent s') `mod` CHECKPOINT_INTERVAL = 0)%Z) ∧
    target_update_flag s' = tu || target_update_flag s ∧
    checkpoint_flag s' = ck || checkpoint_flag s ∧
    saved (agent s') = saved (agent s) ++ (if ck then [step (agent s')] else []) ∧
    (h1 = heap (agent s) ∨
     ∃ θ', h1 = store_all (heap (agent s)) (parameters (dqn (agent s))) θ') ∧
    (if tu then deepcopy h1 (dqn (agent s)) = (heap (agent s'), target (agent s'))
     else heap (agent s') = h1 ∧ target (agent s') = target (agent s)).
Proof.
  unfold train_step. intros Hstep.
  case_bind Hstep as [act a1] eqn Hsel.
  destruct (select_action_frame _ _ _ _ Hsel) as [g Ha1].
  destruct (frame_skip _ act a1 _) as [a2 prev] eqn:Hskip.
  destruct (frame_skip_frame _ _ _ _ _ _ Hskip) as (e & frames & Ha2).
  destruct prev as [[r d]|]; [|done].
  destruct (is_available _) as [avail r'] eqn:Hav. clear Hav Hskip Hsel.
  assert (∃ a3 losses' rs qm tm,
            (heap a3 = heap (agent s) ∨
             ∃ θ', heap a3
                   = store_all (heap (agent s)) (parameters (dqn (agent s))) θ') ∧
            frame_skipping a3 = frame_skipping (agent s) ∧
            dqn a3 = dqn (agent s) ∧ target a3 = target (agent s) ∧
            step a3 = step (agent s) ∧ saved a3 = saved (agent s) ∧
            (if d
             then Ok (mkLoop a3 (recent_states a2) losses' (checkpoint_flag s)
                        (target_update_flag s) (play_steps s)
                        (mkLocals rs qm tm (Some (r, d))), true)
             else
               let a := set_step a3 (step a3 + 1) in
               let play_steps := (play_steps s + 1)%Z in
               let '(a, target_update_flag) :=
                 if decide (step a `mod` TARGET_UPDATE_INTERVAL = 0)%Z
                 then (_target_update a, true)
                 else (a, target_update_flag s) in
               let '(a, checkpoint_flag) :=
                 if decide (step a `mod` CHECKPOINT_INTERVAL = 0)%Z
                 then (save_checkpoint a, true)
                 else (a, checkpoint_flag s) in
               Ok (mkLoop a (recent_states a2) losses' checkpoint_flag
                     target_update_flag play_steps
                     (mkLocals rs qm tm (Some (r, d))), false))
            = Ok (s', stop))
    as (a3 & losses' & rs & qm & tm & Hheap & Hfs & Hdqn & Htgt & Hst & Hsv & Hrest).
  { destruct avail.
    - case_bind Hstep as [[[[loss rs] qm] tm] a3] eqn Hopt.
      apply optimize_frame in Hopt as (g' & θ' & o & ->).
      eexists _, _, _, _, _. split_and!; [|..|exact Hstep]; subst; try done.
      right. by eexists.
    - cbn [mbind Result_bind] in Hstep.
      eexists _, _, _, _, _. split_and!; [|..|exact Hstep]; subst; try done.
      by left. }
  clear Hstep Ha1 Ha2. destruct d.
  { injection Hrest as <- <-. exists false, false, (heap a3).
    cbn [agent play_steps target_update_flag checkpoint_flag].
    rewrite app_nil_r. split_and!; try done; intuition congruence. }
  cbn zeta in Hrest.
  cbn [step set_step] in Hrest.
  destruct (decide (_ `mod` TARGET_UPDATE_INTERVAL = 0)%Z) as [Htu|Htu];
    destruct (decide _) as [Hck|Hck] in Hrest;
    unfold _target_update, save_checkpoint in *;
    cbn [heap dqn set_step step] in *;
    try (destruct (deepcopy (heap a3) (dqn a3)) as [h t] eqn:Hcopy);
    cbn [step set_target set_step set_saved saved] in *;
    injection Hrest as <- <-;
    cbn [agent play_steps target_update_flag checkpoint_flag step saved heap
           target dqn frame_skipping set_saved set_target set_step];
    rewrite ?Hst, ?Hsv, ?Hfs, ?Hdqn, ?Htgt in *.
  - exists true, true, (heap a3).
    split_and!; try done; intuition congruence.
  - exists true, false, (heap a3).
    rewrite app_nil_r. split_and!; try done; intuition congruence.
  - exists false, true, (heap a3). split_and!; try done; intuition congruence.
  - exists false, false, (heap a3).
    rewrite app_nil_r. split_and!; try done; intuition congruence.
Qed.


(** what holds before an episode and is kept by every pass holds when
    the episode has ended *)
Lemma train_episode_ind (P : Loop F Rng G Frame T OptState → Prop)
    (fuel : nat) (gamma : F) s s' :
  (∀ s1 s2 stop, P s1 → train_step gamma s1 = Ok (s2, stop) → P s2) →
  P s → train_episode fuel gamma s = Ok (Some s') → P s'.
Proof.
  intros Hkeep. revert s. induction fuel as [|fuel IH]; intros s Hs Hrun; [done|].
  cbn [train_episode] in Hrun.
  case_bind Hrun as [s1 stop] eqn Hstep.
  pose proof (Hkeep _ _ _ Hs Hstep) as Hs1.
  destruct stop; [by simplify_eq|]. exact (IH s1 Hs1 Hrun).
Qed.

(** the number of passes of an ended episode is within the fuel *)
Lemma train_episode_length (fuel : nat) (gamma : F) s s' :
  train_episode fuel gamma s = Ok (Some s') →
  (play_steps s ≤ play_steps s' < play_steps s + Z.of_nat fuel)%Z ∧
  step (agent s') = (step (agent s) + (play_steps s' - play_steps s))%Z.
Proof.
  revert s. induction fuel as [|fuel IH]; intros s Hrun; [done|].
  cbn [train_episode] in Hrun.
  case_bind Hrun as [s1 stop] eqn Hstep.
  destruct (train_step_effect _ _ _ _ Hstep)
    as (tu & ck & h1 & _ & _ & Hs & Hp & _).
  destruct stop.
  - injection Hrun as <-. rewrite Hs, Hp. lia.
  - apply IH in Hrun as [Hle Hst]. rewrite Hst, Hs. rewrite Hp in Hle |- *. lia.
Qed.

(** the parts of one completed pass through the body of the outer loop *)
Lemma train_iteration_inv (fuel : nat) (gamma : F) a (l : Locals F) a' l' line :
  train_iteration fuel gamma a l = Ok (Some (a', l', line)) →
  ∃ st a0 s',
    get_initial_states a = Ok (st, a0) ∧
    train_episode fuel gamma (mkLoop a0 st [] false false 0 l) = Ok (Some s') ∧
    a' = set_play_steps (agent s')
           (deque_append (_play_steps (agent s')) (play_steps s')) ∧
    l' = locals s' ∧
    log_step line = step (agent s') ∧
    log_play line = play_steps s' ∧
    log_target_updated line = target_update_flag s' ∧
    log_checkpoint line = checkpoint_flag s'.
Proof.
  unfold train_iteration. intros Hrun.
  case_bind Hrun as [st a0] eqn Hinit.
  case_bind Hrun as r eqn Hepisode. destruct r as [s'|]; [|done].
  injection Hrun as <- <- <-. by exists st, a0, s'.
Qed.


(** the configuration and the invariant at the end of an episode *)
Lemma train_episode_keeps (fuel : nat) (gamma : F) s s' :
  loop_ok s → train_episode fuel gamma s = Ok (Some s') →
  loop_ok s' ∧
  frame_skipping (agent s') = frame_skipping (agent s) ∧
  action_repeat (agent s') = action_repeat (agent s) ∧
  _play_steps (agent s') = _play_steps (agent s).
Proof.
  intros Hok Hrun.
  apply (train_episode_ind
           (λ s1, loop_ok s1 ∧
                  frame_skipping (agent s1) = frame_skipping (agent s) ∧
                  action_repeat (agent s1) = action_repeat (agent s) ∧
                  _play_steps (agent s1) = _play_steps (agent s))
           fuel gamma s s'); [|done|done].
  intros s1 s2 stop (Hok1 & Hf & Ha & Hp) Hstep.
  destruct (train_step_effect _ _ _ _ Hstep) as (tu & ck & h1 & Hf2 & _).
  destruct (train_step_inv _ _ _ _ Hstep)
    as (act & a1 & r & _ & _ & _ & Hp2 & _ & Hrep & _).
  split_and!; [by eapply train_step_loop_ok|congruence..].
Qed.

(** [get_initial_states] writes the simulator and the frame buffer *)
Lemma get_initial_states_frame a (st : list Frame) a0 :
  get_initial_states a = Ok (st, a0) →
  ∃ e b, a0 = set_state_buffer (set_env a e) b.
Proof.
  rewrite get_initial_states_eq. destruct (decide _); [done|].
  intros [= <- <-]. by eexists _, _.
Qed.




(** what one pass through the body of the outer loop does to the
    counters *)
Lemma train_iteration_steps (fuel : nat) (gamma : F) a (l : Locals F) a' l' line :
  train_iteration fuel gamma a l = Ok (Some (a', l', line)) →
  (0 ≤ log_play line < Z.of_nat fuel)%Z ∧
  step a' = (step a + log_play line)%Z ∧
  log_step line = step a' ∧
  _play_steps a' = deque_append (_play_steps a) (log_play line).
Proof.
  intros Hrun.
  destruct (train_iteration_inv _ _ _ _ _ _ _ Hrun)
    as (st & a0 & s' & Hinit & Hepisode & -> & _ & Hls & Hlp & _).
  destruct (get_initial_states_frame _ _ _ Hinit) as (e & b & ->).
  destruct (train_episode_length _ _ _ _ Hepisode) as [Hle Hst].
  assert (_play_steps (agent s') = _play_steps a) as Hp.
  { refine (train_episode_ind
              (λ s1 : Loop F Rng G Frame T OptState,
                 _play_steps (agent s1) = _play_steps a)
              fuel gamma _ s' _ _ Hepisode); [|done].
    intros s1 s2 stop Hp1 Hstep.
    destruct (train_step_inv _ _ _ _ Hstep)
      as (act & a1 & r & _ & _ & _ & Hp2 & _). congruence. }
  cbn [agent play_steps step set_state_buffer set_env] in Hle, Hst.
  cbn [step _play_steps set_play_steps].
  rewrite Hls, Hlp, Hp, Hst. split_and!; [lia|lia|lia|done|done].
Qed.

(** X2. The step counter counts the inner steps that did not end an
    episode: after [n] episodes of [train] it has grown by the sum of
    the play lengths printed, each printed step is the running total,
    and every play length is below the number of passes made. *)
Theorem train_step_accounting (n fuel : nat) (gamma : F) a (l : Locals F)
    a' l' (lines : list (LogLine F)) :
  train_loop n fuel gamma a l = Ok (Some (a', l', lines)) →
  length lines = n ∧
  Forall (λ line, (0 ≤ log_play line < Z.of_nat fuel)%Z) lines ∧
  step a' = (step a + foldr Z.add 0%Z (log_play <$> lines))%Z ∧
  ∀ i line, lines !! i = Some line →
    log_step line
    = (step a + foldr Z.add 0%Z (log_play <$> take (S i) lines))%Z.
Proof.
  revert a l a' l' lines.
  induction n as [|n IH]; intros a l a' l' lines Hrun.
  { cbn [train_loop] in Hrun. injection Hrun as <- <- <-.
    split_and!; [done|done|cbn [fmap list_fmap foldr]; lia|done]. }
  cbn [train_loop] in Hrun.
  case_bind Hrun as r eqn Hiter. destruct r as [[[a1 l1] line]|]; [|done].
  case_bind Hrun as r eqn Hrest. destruct r as [[[a2 l2] rest]|]; [|done].
  injection Hrun as <- <- <-.
  destruct (train_iteration_steps _ _ _ _ _ _ _ Hiter) as (Hb & Hs & Hl & _).
  destruct (IH _ _ _ _ _ Hrest) as (Hlen & Hall & Hsum & Hlines).
  split_and!.
  - simpl. by rewrite Hlen.
  - by constructor.
  - rewrite Hsum, Hs, fmap_cons. cbn [foldr]. lia.
  - intros [|i] line' Hi.
    + injection Hi as <-. rewrite Hl, Hs. cbn [take]. rewrite take_0.
      cbn [fmap list_fmap foldr]. lia.
    + cbn [lookup list_lookup] in Hi. rewrite (Hlines _ _ Hi), Hs.
      cbn [take]. rewrite fmap_cons. cbn [foldr]. lia.
Qed.

Lemma train_loop_play_steps (n fuel : nat) (gamma : F) a (l : Locals F)
    a' l' (lines : list (LogLine F)) :
  train_loop n fuel gamma a l = Ok (Some (a', l', lines)) →
  _play_steps a' = foldl deque_append (_play_steps a) (log_play <$> lines).
Proof.
  revert a l a' l' lines.
  induction n as [|n IH]; intros a l a' l' lines Hrun.
  { cbn [train_loop] in Hrun. by injection Hrun as <- <- <-. }
  cbn [train_loop] in Hrun.
  case_bind Hrun as r eqn Hiter. destruct r as [[[a1 l1] line]|]; [|done].
  case_bind Hrun as r eqn Hrest. destruct r as [[[a2 l2] rest]|]; [|done].
  injection Hrun as <- <- <-.
  destruct (train_iteration_steps _ _ _ _ _ _ _ Hiter) as (_ & _ & _ & Hp).
  rewrite (IH _ _ _ _ _ Hrest), Hp. done.
Qed.

(** X3. The average play length is taken over the last five episodes:
    when [train] starts with the empty [_play_steps] of [__init__],
    after any number of episodes the deque holds the play lengths
    printed for the last five of them (all of them when there are
    fewer), oldest first, and [play_step] is their mean. *)
Theorem play_step_last_five (n fuel : nat) (gamma : F) a (l : Locals F)
    a' l' (lines : list (LogLine F)) :
  _play_steps a = deque_new 5 →
  train_loop n fuel gamma a l = Ok (Some (a', l', lines)) →
  items (_play_steps a') = drop (length lines - 5) (log_play <$> lines) ∧
  play_step a' = np_mean (drop (length lines - 5) (log_play <$> lines)).
Proof.
  intros Hnew Hrun. apply train_loop_play_steps in Hrun.
  assert (items (_play_steps a')
          = drop (length lines - 5) (log_play <$> lines)) as Hitems.
  { rewrite Hrun, Hnew, items_appends_new. by rewrite length_fmap. }
  split; [done|]. unfold play_step. by rewrite Hitems.
Qed.

(** a flag that is raised when a counter reaches a multiple of [M]
    tells whether a multiple has been reached *)
Lemma flag_step (M x0 x x' : Z) (stop t flag flag' : bool) :
  x' = (if stop then x else x + 1)%Z →
  (t = true ↔ stop = false ∧ (x' `mod` M = 0)%Z) →
  flag' = t || flag →
  (x0 ≤ x)%Z →
  (flag = true ↔ ∃ k, (x0 < k ≤ x)%Z ∧ (k `mod` M = 0)%Z) →
  (flag' = true ↔ ∃ k, (x0 < k ≤ x')%Z ∧ (k `mod` M = 0)%Z).
Proof.
  intros -> Ht -> Hle Hflag. destruct stop.
  - destruct t; [by destruct (proj1 Ht eq_refl)|]. done.
  - split.
    + intros [Htrue|Htrue]%orb_true_iff.
      * exists (x + 1)%Z. destruct (proj1 Ht Htrue). split; [lia|done].
      * destruct (proj1 Hflag Htrue) as (k & Hk & Hm).
        exists k. split; [lia|done].
    + intros (k & Hk & Hm). apply orb_true_iff.
      destruct (decide (k = x + 1)%Z) as [->|Hne].
      * left. by apply Ht.
      * right. apply Hflag. exists k. split; [lia|done].
Qed.

(** the two flags at the end of an episode *)
Lemma train_episode_flags (fuel : nat) (gamma : F) s s' :
  train_episode fuel gamma s = Ok (Some s') →
  target_update_flag s = false → checkpoint_flag s = false →
  (step (agent s) ≤ step (agent s'))%Z ∧
  (target_update_flag s' = true ↔
   ∃ k, (step (agent s) < k ≤ step (agent s'))%Z ∧
        (k `mod` TARGET_UPDATE_INTERVAL = 0)%Z) ∧
  (checkpoint_flag s' = true ↔
   ∃ k, (step (agent s) < k ≤ step (agent s'))%Z ∧
        (k `mod` CHECKPOINT_INTERVAL = 0)%Z).
Proof.
  intros Hrun Htu Hck.
  refine (train_episode_ind
            (λ s1 : Loop F Rng G Frame T OptState,
               (step (agent s) ≤ step (agent s1))%Z ∧
               (target_update_flag s1 = true ↔
                ∃ k, (step (agent s) < k ≤ step (agent s1))%Z ∧
                     (k `mod` TARGET_UPDATE_INTERVAL = 0)%Z) ∧
               (checkpoint_flag s1 = true ↔
                ∃ k, (step (agent s) < k ≤ step (agent s1))%Z ∧
                     (k `mod` CHECKPOINT_INTERVAL = 0)%Z))
            fuel gamma s s' _ _ Hrun).
  - intros s1 s2 stop (Hle & Htu1 & Hck1) Hstep.
    destruct (train_step_effect _ _ _ _ Hstep)
      as (tu & ck & h1 & _ & _ & Hs & _ & Htu2 & Hck2 & Hftu & Hfck & _).
    split_and!.
    + rewrite Hs. destruct stop; lia.
    + by eapply (flag_step _ _ _ _ stop tu).
    + by eapply (flag_step _ _ _ _ stop ck).
  - rewrite Htu, Hck. split_and!; [lia|..]; (split; [done|]);
      intros (k & Hk & _); lia.
Qed.

(** X4. The two marks of a printed line are exact: [target updated] is
    printed for an episode exactly when the step counter reached a
    multiple of [TARGET_UPDATE_INTERVAL] during it, [checkpoint!]
    exactly when it reached a multiple of [CHECKPOINT_INTERVAL]; so a
    line with [checkpoint!] always has [target updated] too. *)
Theorem log_marks_exact (fuel : nat) (gamma : F) a (l : Locals F) a' l' line :
  train_iteration fuel gamma a l = Ok (Some (a', l', line)) →
  (log_target_updated line = true ↔
   ∃ k, (step a < k ≤ step a')%Z ∧ (k `mod` TARGET_UPDATE_INTERVAL = 0)%Z) ∧
  (log_checkpoint line = true ↔
   ∃ k, (step a < k ≤ step a')%Z ∧ (k `mod` CHECKPOINT_INTERVAL = 0)%Z) ∧
  (log_checkpoint line = true → log_target_updated line = true).
Proof.
  intros Hrun.
  destruct (train_iteration_inv _ _ _ _ _ _ _ Hrun)
    as (st & a0 & s' & Hinit & Hepisode & -> & _ & _ & _ & Htu & Hck).
  destruct (get_initial_states_frame _ _ _ Hinit) as (e & b & ->).
  destruct (train_episode_flags _ _ _ _ Hepisode eq_refl eq_refl)
    as (_ & Htu' & Hck').
  cbn [agent step set_state_buffer set_env set_play_steps] in *.
  rewrite Htu, Hck. split_and!; [done|done|].
  intros (k & Hk & Hm)%Hck'. apply Htu'. exists k. split; [done|].
  unfold TARGET_UPDATE_INTERVAL, CHECKPOINT_INTERVAL in *.
  clear -Hm. Z.div_mod_to_equations. lia.
Qed.


End TrainRun.

(** ** The two networks during training *)

Section NetFacts.
Context {T : Type} `{Inhabited T}.
Implicit Types (h : gmap loc T) (memo : gmap loc loc) (ls : list loc).

(** the clones of different tensors are different new tensors *)
Lemma deepcopy_params_fresh h memo ls h' memo' ls' :
  deepcopy_params h memo ls = (h', memo', ls') →
  NoDup ls → (∀ l, l ∈ ls → memo !! l = None) →
  NoDup ls' ∧ Forall (λ l', l' ∉ dom h) ls'.
Proof.
  revert h memo h' memo' ls'.
  induction ls as [|l ls IH]; intros h memo h' memo' ls' Hcopy Hnd Hmemo.
  { simpl in Hcopy. simplify_eq. split; constructor. }
  apply NoDup_cons in Hnd as [Hl Hnd]. simpl in Hcopy.
  rewrite (Hmemo l) in Hcopy by constructor.
  pose proof (is_fresh (dom h)) as Hfresh.
  remember (fresh (dom h)) as l' eqn:Hl'. clear Hl'.
  destruct (deepcopy_params _ _ ls) as [[h1 memo1] ls1] eqn:Htail.
  simplify_eq.
  apply IH in Htail as [Hnd1 Hnew1]; [|done|]; clear IH.
  2: { intros x Hx. rewrite lookup_insert_ne; [apply Hmemo; by constructor|].
       by intros ->. }
  rewrite dom_insert_L in Hnew1. rewrite Forall_forall in Hnew1. split.
  - apply NoDup_cons. split; [|done].
    intros Hin. apply (Hnew1 _ Hin). set_solver.
  - constructor; [done|]. apply Forall_forall.
    intros x Hx. specialize (Hnew1 _ Hx). set_solver.
Qed.

Lemma store_all_dom h ls (vs : list T) : dom h ⊆ dom (store_all h ls vs).
Proof.
  revert h vs. induction ls as [|l ls IH]; intros h vs; [done|].
  destruct vs as [|v vs]; [done|]. simpl.
  specialize (IH (<[l:=v]> h) vs). rewrite dom_insert_L in IH. set_solver.
Qed.


(** [copy.deepcopy] of a network whose tensors are allocated and
    different *)
Lemma deepcopy_spec h (net : DQN) h' (net' : DQN) :
  deepcopy h net = (h', net') →
  NoDup (parameters net) →
  Forall (λ l, l ∈ dom h) (parameters net) →
  NoDup (parameters net') ∧
  Forall (λ l, l ∈ dom h') (parameters net) ∧
  Forall (λ l, l ∉ parameters net) (parameters net') ∧
  values h' net' = values h net ∧
  values h' net = values h net ∧
  n_action net' = n_action net.
Proof.
  intros Hcopy Hnd Hdom.
  destruct (deepcopy_values _ _ _ _ Hcopy Hdom) as (Hn & Hvals & Hsame & Hnew).
  unfold deepcopy in Hcopy.
  destruct (deepcopy_params h ∅ (parameters net)) as [[h1 memo] ls'] eqn:Hparams.
  injection Hcopy as <- <-. cbn [parameters] in *.
  destruct (deepcopy_params_fresh _ _ _ _ _ _ Hparams Hnd) as [Hnd' _];
    [by intros|].
  apply deepcopy_params_dom in Hparams.
  rewrite Forall_forall in Hdom, Hnew.
  split_and!; try done.
  - apply Forall_forall. intros x Hx. specialize (Hdom _ Hx). set_solver.
  - apply Forall_forall. intros x Hx Hin. apply (Hnew _ Hx). by apply Hdom.
Qed.
End NetFacts.

Section Networks.
Context {F Rng G Screen Frame T OptState : Type}.
Context `{Num F} `{Random Rng F} `{Gym G Screen F} `{Vision Screen Frame}.
Context `{Inhabited T} `{Torch T F Frame OptState}.
Implicit Types (a : Agent F Rng G Frame T OptState).
Implicit Types (s : Loop F Rng G Frame T OptState).

(** a pass through the body of the inner loop keeps the two networks
    apart, and touches the target only in [_target_update] *)
Lemma train_step_nets (gamma : F) s s' (stop : bool) :
  nets_ok (agent s) → train_step gamma s = Ok (s', stop) →
  nets_ok (agent s') ∧
  (stop = false ∧ (step (agent s') `mod` TARGET_UPDATE_INTERVAL = 0)%Z →
   values (heap (agent s')) (target (agent s'))
   = values (heap (agent s')) (dqn (agent s'))) ∧
  (¬ (stop = false ∧ (step (agent s') `mod` TARGET_UPDATE_INTERVAL = 0)%Z) →
   target (agent s') = target (agent s) ∧
   values (heap (agent s')) (target (agent s'))
   = values (heap (agent s)) (target (agent s))).
Proof.
  intros (Hnd & Hndt & Hdom & Hdisj) Hstep.
  destruct (train_step_effect _ _ _ _ Hstep)
    as (tu & ck & h1 & _ & Hdqn & _ & _ & Htu & _ & _ & _ & _ & Hh1 & Hcopy).
  assert (dom (heap (agent s)) ⊆ dom h1 ∧
          ∀ x, x ∉ parameters (dqn (agent s)) → h1 !!! x = heap (agent s) !!! x)
    as [Hsub Hother].
  { destruct Hh1 as [->|[θ' ->]]; [done|]. split; [apply store_all_dom|].
    intros x Hx. by apply store_all_other. }
  assert (Forall (λ l, l ∈ dom h1) (parameters (dqn (agent s)))) as Hdom1.
  { eapply Forall_impl; [done|]. intros l Hl. by apply Hsub. }
  unfold nets_ok. rewrite Hdqn. destruct tu.
  - destruct (deepcopy_spec _ _ _ _ Hcopy Hnd Hdom1)
      as (Hnd' & Hdom' & Hdisj' & Hvals & Hsame & _).
    split_and!; try done.
    + intros _. by rewrite Hvals, Hsame.
    + intros Hno. destruct Hno. by apply Htu.
  - destruct Hcopy as [-> ->]. split_and!; try done.
    + intros Hyes. by apply Htu in Hyes.
    + intros _. split; [done|]. apply list_fmap_ext. intros i l Hl.
      apply Hother. rewrite Forall_forall in Hdisj. apply Hdisj.
      by eapply list_elem_of_lookup_2.
Qed.

(** X6. In [train] the target network is synchronised exactly at the
    multiples of [TARGET_UPDATE_INTERVAL]: after an inner step that
    brought the step counter to such a multiple, the target parameters
    hold the values of the online parameters as they are after the
    step's [optimize]; every other inner step leaves the target object
    and the values of its parameters as they were, whatever [optimize]
    wrote to the online parameters.  The two networks never share a
    tensor. *)
Theorem target_synchronised (gamma : F) s s' (stop : bool) :
  nets_ok (agent s) → train_step gamma s = Ok (s', stop) →
  nets_ok (agent s') ∧
  if decide (stop = false ∧ (step (agent s') `mod` TARGET_UPDATE_INTERVAL = 0)%Z)
  then values (heap (agent s')) (target (agent s'))
       = values (heap (agent s')) (dqn (agent s'))
  else target (agent s') = target (agent s) ∧
       values (heap (agent s')) (target (agent s'))
       = values (heap (agent s)) (target (agent s)).
Proof.
  intros Hnets Hstep.
  destruct (train_step_nets _ _ _ _ Hnets Hstep) as (Hnets' & Hyes & Hno).
  split; [done|]. destruct (decide _); auto.
Qed.

(** X7. An episode whose printed line lacks [target updated] has left
    the target network alone: the same object with the same parameter
    values as before the episode. *)
Theorem target_kept_without_mark (fuel : nat) (gamma : F) a (l : Locals F)
    a' l' line :
  nets_ok a → train_iteration fuel gamma a l = Ok (Some (a', l', line)) →
  nets_ok a' ∧
  (log_target_updated line = false →
   target a' = target a ∧
   values (heap a') (target a') = values (heap a) (target a)).
Proof.
  intros Hnets Hrun.
  destruct (train_iteration_inv _ _ _ _ _ _ _ Hrun)
    as (st & a0 & s' & Hinit & Hepisode & -> & _ & _ & _ & Htu & _).
  destruct (get_initial_states_frame _ _ _ Hinit) as (e & b & ->).
  rewrite Htu. clear Htu Hrun Hinit.
  refine (train_episode_ind
            (λ s1 : Loop F Rng G Frame T OptState,
               nets_ok (agent s1) ∧
               (target_update_flag s1 = false →
                target (agent s1) = target a ∧
                values (heap (agent s1)) (target (agent s1))
                = values (heap a) (target a)))
            fuel gamma _ s' _ _ Hepisode); [|done].
  intros s1 s2 stop [Hnets1 Hkept] Hstep.
  destruct (train_step_nets _ _ _ _ Hnets1 Hstep) as (Hnets2 & _ & Hno).
  split; [done|]. intros Hflag.
  destruct (train_step_effect _ _ _ _ Hstep)
    as (tu & ck & h1 & _ & _ & _ & _ & Htu & _ & Hftu & _).
  rewrite Hftu in Hflag. apply orb_false_iff in Hflag as [-> Hold].
  destruct Hno as [-> ->]; [|by apply Hkept].
  intros Hyes. by apply Htu in Hyes.
Qed.

End Networks.

(** ** Configurations that [train] and [play] cannot run *)

Section Degenerate.
Context {F Rng G Screen Frame T OptState : Type}.
Context `{Num F} `{Random Rng F} `{Gym G Screen F} `{Vision Screen Frame}.
Context `{Inhabited T} `{Torch T F Frame OptState}.
Implicit Types (a : Agent F Rng G Frame T OptState).


(** X10. With [action_repeat = 0] there is no frame to stack:
    [get_initial_states] raises [ValueError], and with it [train] and
    [play], before any step of the simulator. *)
Theorem zero_action_repeat_raises (n fuel : nat) (gamma : F) a :
  action_repeat a = 0 →
  get_initial_states a = Raise ValueError ∧
  train (S n) fuel gamma a = Raise ValueError ∧
  play fuel a = Raise ValueError.
Proof.
  intros Har. split_and!.
  - rewrite get_initial_states_eq. by destruct (decide _).
  - unfold train. cbn [train_loop]. unfold train_iteration.
    rewrite get_initial_states_eq. by destruct (decide _).
  - unfold play. destruct (gym_reset _) as [o g].
    rewrite get_initial_states_eq. cbn [action_repeat set_env].
    by destruct (decide _).
Qed.
End Degenerate.

(** ** [play] *)

Section Play.
Context {F Rng G Screen Frame T OptState : Type}.
Context `{Num F} `{Random Rng F} `{Gym G Screen F} `{Vision Screen Frame}.
Context `{Inhabited T} `{Torch T F Frame OptState}.
Implicit Types (a : Agent F Rng G Frame T OptState).




End Play.

(** ** More on the replay memory *)

Section MemoryFacts.
Context {F Rng NpState Action : Type} `{Random Rng F}.
Implicit Types (r : ReplayMemory F NpState Action).

(** the sample is a part of the population, with multiplicity *)
Lemma random_sample_submseteq {A} (population : list A) (k : nat) (g : Rng) :
  k ≤ length population →
  ∃ res g',
    random_sample population k g = Ok (res, g') ∧
    length res = k ∧ res ⊆+ population.
Proof.
  intros Hk. unfold random_sample. destruct (decide _) as [_|]; [|lia].
  destruct (pool_select_live k (length population) 0 population g eq_refl)
    as [Hlen Hsub]; [lia|].
  rewrite Nat.sub_0_r, take_ge in Hsub by lia.
  destruct (pool_select _ population 0 k g) as [res g'].
  by exists res, g'.
Qed.

(** X13. [sample] draws without replacement in the strong sense: the
    sampled transitions are a sub-multiset of the memory (a transition
    is returned at most as often as it is stored), and a sample of the
    whole memory returns every stored transition exactly once, in some
    order. *)
Theorem sample_is_part_of_memory r (k : nat) (g : Rng) :
  1 ≤ k ≤ size r →
  ∃ ts g',
    sample r k g = Ok (columns ts, g') ∧
    length ts = k ∧
    ts ⊆+ items (memory r) ∧
    (k = size r → ts ≡ₚ items (memory r)).
Proof.
  unfold size, len, sample. intros [Hk1 Hk2].
  destruct (random_sample_submseteq (items (memory r)) k g Hk2)
    as (ts & g' & -> & Hlen & Hsub).
  exists ts, g'. split_and!; try done.
  - cbn [mbind Result_bind]. destruct ts; [simpl in *; lia|done].
  - intros ->. apply submseteq_length_Permutation; [done|]. by rewrite Hlen.
Qed.

(** X14. Below its capacity the memory drops nothing: after at most
    [capacity] calls of [put] on a new memory it holds the transition
    of every call, oldest first, and [size()] is the number of calls. *)
Theorem put_keeps_all_below_capacity (c : nat) (ps : list (PutArgs F NpState Action)) :
  length ps ≤ c →
  items (memory (put_all (ReplayMemory_init c) ps)) = stored <$> ps ∧
  size (put_all (ReplayMemory_init c) ps) = length ps.
Proof.
  intros Hc.
  assert (items (memory (put_all (ReplayMemory_init c) ps)) = stored <$> ps)
    as Hitems.
  { rewrite memory_put_all.
    change (memory (ReplayMemory_init c))
      with (deque_new (A := Stored F NpState Action) c).
    rewrite items_appends_new, length_fmap.
    replace (length ps - c) with 0 by lia. done. }
  split; [done|]. unfold size, len. by rewrite Hitems, length_fmap.
Qed.
End MemoryFacts.

(** ** The transitions of an episode *)

Section Chain.
Context {F Rng G Screen Frame T OptState : Type}.
Context `{Num F} `{Random Rng F} `{Gym G Screen F} `{Vision Screen Frame}.
Context `{Inhabited T} `{Torch T F Frame OptState}.
Implicit Types (s : Loop F Rng G Frame T OptState).

(** the newest element of a deque that can hold one *)
Lemma last_append {A} (d : deque A) (x : A) :
  0 < maxlen d → last (items (deque_append d x)) = Some x.
Proof.
  intros Hmax. unfold deque_append. cbn [items].
  destruct (decide _) as [Hlt|_]; [|apply last_snoc].
  destruct (items d) as [|y l]; [simpl in Hlt; lia|].
  simpl. rewrite drop_0. apply last_snoc.
Qed.

(** X15. Within an episode the stored transitions form a chain: the
    transition stored by an inner step starts in the state in which
    the transition stored by the previous inner step ended, and that is
    the state the loop carries from one step to the next. *)
Theorem transitions_chain (gamma : F) s s1 s2 (stop : bool) :
  0 < maxlen (memory (replay (agent s))) →
  train_step gamma s = Ok (s1, false) →
  train_step gamma s1 = Ok (s2, stop) →
  ∃ t1 t2,
    last (items (memory (replay (agent s1)))) = Some t1 ∧
    last (items (memory (replay (agent s2)))) = Some t2 ∧
    state t1 = states s ∧
    next_state t1 = states s1 ∧
    state t2 = states s1 ∧
    next_state t2 = states s2.
Proof.
  intros Hmax Hstep1 Hstep2.
  destruct (train_step_inv _ _ _ _ Hstep1) as (act1 & a1 & r1 & _ & _ & Hmem1 & _).
  destruct (train_step_inv _ _ _ _ Hstep2) as (act2 & a2 & r2 & _ & _ & Hmem2 & _).
  unfold NpState in *. rewrite Hmem2. cbn [memory put].
  rewrite Hmem1. cbn [memory put].
  eexists _, _. split_and!.
  - by apply last_append.
  - apply last_append. by rewrite maxlen_append.
  - done.
  - done.
  - done.
  - done.
Qed.
End Chain.

(** ** The exploration rate over the real numbers, continued *)

Section Exploration.
Context {Rng G Screen Frame T OptState : Type}.
Context `{Random Rng R} `{Gym G Screen R} `{Inhabited T} `{Torch T R Frame OptState}.
Implicit Types (a : Agent R Rng G Frame T OptState).

Lemma exp_decay_bounds (n : Z) : (0 ≤ n)%Z → (0 < exp (- IZR n / 20000) <= 1)%R.
Proof.
  intros Hn. split; [apply exp_pos|].
  rewrite <- exp_0. apply exp_le. apply IZR_le in Hn. lra.
Qed.

(** X16. Over the real numbers, for a step counter and an average play
    length that are not negative, the exploration rate lies strictly
    above [EPSILON_END + 5 / (1 + play_step)] and at most at
    [EPSILON_START + 5 / (1 + play_step)]: it is always above
    [EPSILON_END], it exceeds [EPSILON_START] while the average play
    length is small, and it does not increase when the average play
    length grows. *)
Theorem epsilon_envelope (n : Z) (p p' : R) :
  (0 ≤ n)%Z → (0 <= p)%R → (p <= p')%R →
  (EPSILON_END + 5 / (1 + p) < epsilon_at n p)%R ∧
  (epsilon_at n p <= EPSILON_START + 5 / (1 + p))%R ∧
  (EPSILON_END < epsilon_at n p)%R ∧
  (epsilon_at n p' <= epsilon_at n p)%R.
Proof.
  intros Hn Hp Hpp'. destruct (exp_decay_bounds n Hn) as [Hpos Hle].
  unfold epsilon_at, EPSILON_END, EPSILON_START, EPSILON_DECAY. simpl.
  replace (-1 * IZR n / 20000)%R with (- IZR n / 20000)%R by lra.
  set (x := exp (- IZR n / 20000)) in *.
  assert (0 < 5 / (1 + p))%R as Hq by (apply Rdiv_lt_0_compat; lra).
  assert (5 / (1 + p') <= 5 / (1 + p))%R as Hmono.
  { unfold Rdiv. apply Rmult_le_compat_l; [lra|].
    apply Rinv_le_contravar; lra. }
  split_and!; nra.
Qed.

(** X17. Over the real numbers, while the average play length is at
    most 4 (and at least one episode has been recorded, so that the
    average is a number) the exploration rate is above 1, whatever the
    step counter: [select_action] takes the random branch for every
    outcome of [random()] up to 1 and returns a sampled action, without
    consulting the network. *)
Theorem short_episodes_explore a (st : list Frame) :
  items (_play_steps a) ≠ [] →
  (0 <= play_step a <= 4)%R →
  ((random (rng a)).1 <= 1)%R →
  (1 < epsilon_at (step a) (play_step a))%R ∧
  select_action a st
  = Ok ((space_sample (action_space (env a)) (random (rng a)).2).1,
        set_rng (set_epsilon a (epsilon_at (step a) (play_step a)))
          (space_sample (action_space (env a)) (random (rng a)).2).2).
Proof.
  intros _ [Hp0 Hp4] Hu.
  assert (1 < epsilon_at (step a) (play_step a))%R as Heps.
  { set (p := play_step a) in *. clearbody p.
    unfold epsilon_at, EPSILON_END, EPSILON_START, EPSILON_DECAY. simpl.
    pose proof (exp_pos (-1 * IZR (step a) / 20000)) as Hpos.
    set (x := exp _) in *.
    assert (1 <= 5 / (1 + p))%R as Hq.
    { apply (Rmult_le_reg_r (1 + p)); [lra|].
      unfold Rdiv. rewrite Rmult_assoc, Rinv_l by lra. lra. }
    nra. }
  split; [done|]. unfold select_action.
  cbn [epsilon set_epsilon set_rng rng env].
  destruct (random (rng a)) as [u g]. cbn [fst snd] in *.
  cbn [epsilon set_epsilon set_rng rng env].
  assert (fgt (epsilon_at (step a) (play_step a)) u = true) as ->.
  { change (Rgtb (epsilon_at (step a) (play_step a)) u = true).
    unfold Rgtb. destruct (Rgt_dec _ _) as [|Hn]; [done|].
    exfalso. apply Hn. unfold Rgt. lra. }
  by destruct (space_sample _ _).
Qed.
End Exploration.

(** ** Checkpoint files *)

Section NameFacts.

Lemma span_digits_uint (d : Decimal.uint) (rest : string) :
  match rest with String c _ => is_digit c = false | EmptyString => True end →
  span_digits (NilEmpty.string_of_uint d +:+ rest)
  = (NilEmpty.string_of_uint d, rest).
Proof.
  intros Hrest. induction d as [|d IH|d IH|d IH|d IH|d IH|d IH|d IH|d IH|d IH|d IH];
    try (simpl; simpl in IH; rewrite IH; reflexivity).
  simpl. destruct rest as [|c r]; [done|]. simpl. by rewrite Hrest.
Qed.

(** the decimal rendering of a number that is not negative *)
Lemma str_uint (n : Z) :
  (0 ≤ n)%Z →
  ∃ d, str n = NilEmpty.string_of_uint d ∧ d ≠ Decimal.Nil ∧ Z.of_uint d = n.
Proof.
  intros Hn. destruct n as [|p|p]; [| |lia].
  - by exists (Decimal.D0 Decimal.Nil).
  - exists (Pos.to_uint p).
    pose proof (Unsigned.to_uint_nonnil p) as Hnil.
    split_and!; [|done|].
    + unfold str. cbn [Z.to_int NilZero.string_of_int].
      by destruct (Pos.to_uint p).
    + pose proof (DecimalZ.of_to (Z.pos p)) as Hz. exact Hz.
Qed.

(** the search in a name that [train] has built *)
Lemma re_search_checkpoint_path (d : Decimal.uint) :
  d ≠ Decimal.Nil →
  re_search ("dqn_checkpoints/checkpoint_"
             +:+ NilEmpty.string_of_uint d +:+ ".pth.tar")
  = Some (NilEmpty.string_of_uint d).
Proof.
  intros Hnil. simpl.
  match goal with
  | |- context [match_here ?s] =>
    assert (match_here s = Some (NilEmpty.string_of_uint d)) as ->; [|done]
  end.
  unfold match_here. simpl.
  change ("" +:+ NilEmpty.string_of_uint d +:+ ".pth.tar")
    with (NilEmpty.string_of_uint d +:+ ".pth.tar").
  rewrite span_digits_uint by done.
  rewrite bool_decide_eq_true_2; [done|]. split; [|by left].
  by destruct d.
Qed.

Lemma int_string_of_uint (d : Decimal.uint) :
  d ≠ Decimal.Nil → int (NilEmpty.string_of_uint d) = Ok (Z.of_uint d).
Proof.
  intros Hnil. unfold int.
  replace (NilEmpty.string_of_uint d) with (NilZero.string_of_uint d)
    by (by destruct d).
  by rewrite NilZero.usu.
Qed.

(** a run of digits is a number *)
Lemma span_digits_number (s : string) :
  ∃ d, NilEmpty.uint_of_string (span_digits s).1 = Some d.
Proof.
  induction s as [|c s [d IH]]; [by exists Decimal.Nil|].
  cbn [span_digits]. destruct (is_digit c) eqn:Hc; [|by exists Decimal.Nil].
  destruct (span_digits s) as [ds rest]. cbn [fst] in *.
  cbn [NilEmpty.uint_of_string]. rewrite IH.
  destruct c as [[|] [|] [|] [|] [|] [|] [|] [|]];
    try (by vm_compute in Hc); by eexists.
Qed.

Lemma match_here_number (s ds : string) :
  match_here s = Some ds → ∃ d, NilZero.uint_of_string ds = Some d.
Proof.
  unfold match_here. destruct (strip_prefix _ s) as [s'|]; [|done].
  cbn [mbind option_bind].
  destruct (span_digits_number s') as [d Hd].
  destruct (span_digits s') as [ds' rest]. cbn [fst] in Hd.
  case_bool_decide as Hok; [|done]. intros [= <-].
  exists d. destruct Hok as [Hne _]. by destruct ds'.
Qed.

Lemma re_search_number (s ds : string) :
  re_search s = Some ds → ∃ d, NilZero.uint_of_string ds = Some d.
Proof.
  induction s as [|c s IH]; cbn [re_search];
    destruct (match_here _) as [ds'|] eqn:Hm; try done;
    intros [= <-]; by eapply match_here_number.
Qed.

(** a file name has a number or no match; [int] never fails *)
Lemma numbered_cases (x : string) :
  (∃ n, numbered x = inr (n, x)) ∨
  (re_search x = None ∧ numbered x = inl AttributeError).
Proof.
  unfold numbered. destruct (re_search x) as [ds|] eqn:Hs; [left|by right].
  destruct (re_search_number _ _ Hs) as [d Hd]. unfold int. rewrite Hd.
  by eexists.
Qed.

Lemma numbered_snd (x : string) (p : Z * string) :
  numbered x = inr p → p.2 = x.
Proof.
  unfold numbered. destruct (re_search x); [|done].
  destruct (int _); [|done]. by intros [= <-].
Qed.

Lemma numbered_all_spec (files : list string) :
  match numbered_all files with
  | inr ps => ps.*2 = files ∧ Forall (λ p, numbered p.2 = inr p) ps
  | inl e => e = AttributeError ∧ ∃ x, x ∈ files ∧ re_search x = None
  end.
Proof.
  induction files as [|x files IH]; [done|]. cbn [numbered_all].
  destruct (numbered_cases x) as [[n Hn]|[Hno ->]].
  - rewrite Hn. destruct (numbered_all files) as [e|ps].
    + destruct IH as (-> & y & Hy & Hnone). split; [done|].
      exists y. split; [|done]. apply elem_of_cons. by right.
    + destruct IH as [<- Hall]. split; [done|]. by constructor.
  - split; [done|]. exists x. split; [|done]. apply elem_of_cons. by left.
Qed.

Lemma insert_by_number_perm (x : Z * string) (l : list (Z * string)) :
  insert_by_number x l ≡ₚ x :: l.
Proof.
  induction l as [|y l IH]; [done|]. cbn [insert_by_number].
  destruct (decide _); [done|]. rewrite IH. apply perm_swap.
Qed.

Lemma sorted_perm (l : list (Z * string)) : sorted l ≡ₚ l.
Proof.
  induction l as [|x l IH]; [done|]. cbn [sorted foldr].
  rewrite insert_by_number_perm. by constructor.
Qed.

(** the new element comes last exactly when it is larger than all *)
Lemma last_insert_by_number (x d : Z * string) (l : list (Z * string)) :
  List.last (insert_by_number x l) d
  = if decide (Forall (λ y, (y.1 < x.1)%Z) l) then x else List.last l d.
Proof.
  induction l as [|y l IH].
  { cbn [insert_by_number List.last]. by rewrite decide_True. }
  cbn [insert_by_number]. destruct (decide (x.1 ≤ y.1)%Z) as [Hle|Hgt].
  - rewrite decide_False; [done|]. intros [Hy _]%Forall_cons. lia.
  - assert (List.last (y :: insert_by_number x l) d
            = List.last (insert_by_number x l) d) as ->.
    { assert (insert_by_number x l ≠ []) as Hne.
      { clear IH. destruct l as [|z l]; [done|]. cbn [insert_by_number].
        by destruct (decide (x.1 ≤ z.1)%Z). }
      by destruct (insert_by_number x l). }
    rewrite IH. destruct (decide (Forall _ l)) as [Hall|Hnot].
    + rewrite decide_True; [done|]. constructor; [lia|done].
    + rewrite decide_False by (by intros [_ ?]%Forall_cons).
      destruct l as [|z l]; [|done]. destruct Hnot. constructor.
Qed.

(** the last element of the sorted list: the last of the largest *)
Lemma last_sorted (ps : list (Z * string)) (d : Z * string) :
  ps ≠ [] →
  ∃ l1 p l2,
    ps = l1 ++ p :: l2 ∧ List.last (sorted ps) d = p ∧
    Forall (λ q, (q.1 ≤ p.1)%Z) l1 ∧ Forall (λ q, (q.1 < p.1)%Z) l2.
Proof.
  induction ps as [|x ps IH]; [done|]. intros _.
  destruct (decide (ps = [])) as [->|Hne].
  { exists [], x, []. by split_and!. }
  destruct (IH Hne) as (l1 & p & l2 & Hps & Hlast & Hl1 & Hl2). clear IH.
  cbn [sorted foldr]. fold (sorted ps). rewrite last_insert_by_number.
  destruct (decide (Forall _ (sorted ps))) as [Hall|Hnot].
  - rewrite sorted_perm in Hall. exists [], x, ps. by split_and!.
  - rewrite sorted_perm in Hnot. exists (x :: l1), p, l2.
    rewrite Hlast. split_and!; [by rewrite Hps|done| |done].
    constructor; [|done].
    destruct (decide (x.1 ≤ p.1)%Z) as [|Hgt]; [done|]. destruct Hnot.
    rewrite Hps. apply Forall_app. split; [|constructor].
    + eapply Forall_impl; [done|]. intros q Hq. simpl in Hq. lia.
    + lia.
    + eapply Forall_impl; [done|]. intros q Hq. simpl in Hq. lia.
Qed.

(** X18. The names under which [train] saves are the names that
    [load_latest_checkpoint] reads: for every step that is not
    negative, the pattern finds a match in
    [dqn_checkpoints/checkpoint_<step>.pth.tar], and the number it
    extracts is that step. *)
Theorem checkpoint_name_round_trip (n : Z) :
  (0 ≤ n)%Z →
  re_search (checkpoint_path n) = Some (str n) ∧
  int (str n) = Ok n ∧
  numbered (checkpoint_path n) = inr (n, checkpoint_path n).
Proof.
  intros Hn. destruct (str_uint n Hn) as (d & Hstr & Hnil & Hval).
  assert (re_search (checkpoint_path n) = Some (str n)) as Hsearch.
  { unfold checkpoint_path. rewrite Hstr. by apply re_search_checkpoint_path. }
  assert (int (str n) = Ok n) as Hint.
  { rewrite Hstr, <- Hval. by apply int_string_of_uint. }
  split_and!; [done|done|]. unfold numbered. by rewrite Hsearch, Hint.
Qed.
End NameFacts.

Section CheckpointFacts.
Context {F Rng G Screen Frame T OptState : Type}.
Context `{Num F} `{Random Rng F} `{Gym G Screen F} `{Vision Screen Frame}.
Context `{Inhabited T} `{Torch T F Frame OptState}.
Implicit Types (a : Agent F Rng G Frame T OptState).
Implicit Types (fs : Files T OptState).

(** X19. When the name of every file that [glob] returned has a match,
    [load_latest_checkpoint] loads the file with the largest number,
    and among several files with that number the one that [glob]
    listed last. *)
Theorem load_latest_takes_largest (files : list string) fs a :
  files ≠ [] →
  Forall (λ x, re_search x ≠ None) files →
  ∃ l1 x l2 n,
    files = l1 ++ x :: l2 ∧
    numbered x = inr (n, x) ∧
    Forall (λ y, ∃ m, numbered y = inr (m, y) ∧ (m ≤ n)%Z) l1 ∧
    Forall (λ y, ∃ m, numbered y = inr (m, y) ∧ (m < n)%Z) l2 ∧
    load_latest_checkpoint files fs a = load_checkpoint fs a x.
Proof.
  intros Hne Hall. unfold load_latest_checkpoint.
  destruct files as [|x0 files0] eqn:Hfiles; [done|]. rewrite <- Hfiles in *.
  pose proof (numbered_all_spec files) as Hspec.
  destruct (numbered_all files) as [e|ps].
  { destruct Hspec as (_ & y & Hy & Hnone).
    rewrite Forall_forall in Hall. by destruct (Hall _ Hy). }
  destruct Hspec as [Hsnd Hnum].
  assert (ps ≠ []) as Hps by (intros ->; by rewrite <- Hsnd in Hne).
  destruct (last_sorted ps (0%Z, x0) Hps) as (l1 & p & l2 & -> & -> & Hl1 & Hl2).
  apply Forall_app in Hnum as [Hn1 Hn2]. apply Forall_cons in Hn2 as [Hp Hn2].
  exists (l1.*2), p.2, (l2.*2), p.1.
  split_and!.
  - by rewrite <- Hsnd, fmap_app, fmap_cons.
  - rewrite Hp. by destruct p.
  - apply Forall_fmap, Forall_forall. intros q Hq.
    rewrite Forall_forall in Hn1, Hl1. exists q.1. cbn [compose].
    rewrite (Hn1 _ Hq). split; [by destruct q|by apply Hl1].
  - apply Forall_fmap, Forall_forall. intros q Hq.
    rewrite Forall_forall in Hn2, Hl2. exists q.1. cbn [compose].
    rewrite (Hn2 _ Hq). split; [by destruct q|by apply Hl2].
  - done.
Qed.



End CheckpointFacts.

(** ** The greedy action *)

Section Greedy.
Context {Rng G Screen Frame T OptState : Type}.
Context `{Random Rng R} `{Gym G Screen R} `{Inhabited T} `{Torch T R Frame OptState}.
Implicit Types (a : Agent R Rng G Frame T OptState).

Lemma argmax_from_spec (pre xs : list R) (best : nat) (m : R) :
  pre !! best = Some m → (∀ x, x ∈ pre → (x <= m)%R) →
  ∃ m', (pre ++ xs) !! argmax_from best m (length pre) xs = Some m' ∧
        is_max m' (pre ++ xs).
Proof.
  revert pre best m. induction xs as [|y ys IH]; intros pre best m Hb Hmax.
  { exists m. rewrite app_nil_r. split; [done|].
    split; [by eapply list_elem_of_lookup_2|done]. }
  cbn [argmax_from]. change (fgt y m) with (Rgtb y m).
  destruct (Rgtb y m) eqn:Hc.
  - apply Rgtb_true in Hc.
    destruct (IH (pre ++ [y]) (length pre) y) as (m' & Hi & Hm').
    + by rewrite lookup_app_r, Nat.sub_diag.
    + intros x [Hx| ->%list_elem_of_singleton]%elem_of_app; [|lra].
      specialize (Hmax _ Hx). lra.
    + rewrite length_app in Hi. cbn [length] in Hi. rewrite Nat.add_1_r in Hi.
      rewrite <- app_assoc in Hi, Hm'. by exists m'.
  - apply Rgtb_false in Hc.
    destruct (IH (pre ++ [y]) best m) as (m' & Hi & Hm').
    + rewrite lookup_app_l; [done|]. by eapply lookup_lt_Some.
    + intros x [Hx| ->%list_elem_of_singleton]%elem_of_app; [by apply Hmax|done].
    + rewrite length_app in Hi. cbn [length] in Hi. rewrite Nat.add_1_r in Hi.
      rewrite <- app_assoc in Hi, Hm'. by exists m'.
Qed.

(** X22. Over the real numbers, the action that the greedy branch of
    [select_action] and the loop of [play] take is one of largest
    value: it is an index of the row that the online network computes
    for the current states, and no action of the row has a larger
    value. *)
Theorem greedy_action_is_best a (st : list Frame) (i : nat) :
  greedy_action a st = Ok i →
  ∃ m, forward (values (heap a) (dqn a)) [st] 0 !! i = Some m ∧
       is_max m (forward (values (heap a) (dqn a)) [st] 0).
Proof.
  unfold greedy_action, row_argmax.
  destruct (forward _ _ 0) as [|x xs]; [done|]. intros [= <-].
  apply (argmax_from_spec [x] xs 0 x); [done|].
  by intros y ->%list_elem_of_singleton.
Qed.
End Greedy.

(** ** Episodes without an optimisation step *)

Section NoOptimize.
Context {F Rng G Screen Frame T OptState : Type}.
Context `{Num F} `{Random Rng F} `{Gym G Screen F} `{Vision Screen Frame}.
Context `{Inhabited T} `{Torch T F Frame OptState}.
Implicit Types (a : Agent F Rng G Frame T OptState).
Implicit Types (s : Loop F Rng G Frame T OptState).

(** a pass that leaves at most [BATCH_SIZE] transitions in the memory
    has not called [optimize] *)
Lemma train_step_no_optimize (gamma : F) s s' (stop : bool) :
  train_step gamma s = Ok (s', stop) →
  (_available (replay (agent s)) = true → BATCH_SIZE < size (replay (agent s))) →
  size (replay (agent s')) ≤ BATCH_SIZE →
  losses s' = losses s ∧
  reward_sum (locals s') = reward_sum (locals s) ∧
  q_mean (locals s') = q_mean (locals s) ∧
  target_mean (locals s') = target_mean (locals s) ∧
  _available (replay (agent s')) = false.
Proof.
  unfold train_step. intros Hstep Hlatch Hsize.
  case_bind Hstep as [act a1] eqn Hsel.
  destruct (select_action_frame _ _ _ _ Hsel) as [g Ha1].
  destruct (frame_skip _ act a1 _) as [a2 prev] eqn:Hskip.
  destruct (frame_skip_frame _ _ _ _ _ _ Hskip) as (e & frames & Ha2).
  destruct prev as [[r d]|]; [|done].
  assert (replay a2 = replay (agent s)) as Hr by (by subst).
  clear Ha1 Ha2 Hskip Hsel.
  destruct (is_available _) as [avail r'] eqn:Hav.
  cbn [replay set_replay] in Hav. rewrite Hr in Hav.
  destruct avail.
  - exfalso. apply is_available_true in Hav as [Hbig _].
    2: { intros Hl. eapply Nat.lt_le_trans; [by apply Hlatch|].
         apply len_append_mono. }
    case_bind Hstep as [[[[loss rs] qm] tm] a3] eqn Hopt.
    apply optimize_frame in Hopt as (g' & θ' & o & ->).
    destruct d.
    + injection Hstep as <- <-. cbn in Hsize. unfold NpState in *. lia.
    + repeat (destruct (decide _) in Hstep); injection Hstep as <- <-;
        unfold _target_update, save_checkpoint in Hsize;
        repeat (destruct (deepcopy _ _)); cbn in Hsize;
        unfold NpState in *; lia.
  - assert (_available r' = false) as Hoff.
    { revert Hav. unfold is_available. destruct (_available _) eqn:Hold; [done|].
      destruct (decide _); [done|]. by intros [= ? <-]. }
    cbn [mbind Result_bind] in Hstep.
    destruct d.
    + injection Hstep as <- <-. by split_and!.
    + repeat (destruct (decide _) in Hstep); injection Hstep as <- <-;
        unfold _target_update, save_checkpoint;
        repeat (destruct (deepcopy _ _)); by split_and!.
Qed.

(** the memory does not shrink during an episode *)
Lemma train_episode_grows (fuel : nat) (gamma : F) s s' :
  train_episode fuel gamma s = Ok (Some s') →
  size (replay (agent s)) ≤ size (replay (agent s')).
Proof.
  intros Hrun.
  refine (train_episode_ind
            (λ s1 : Loop F Rng G Frame T OptState,
               size (replay (agent s)) ≤ size (replay (agent s1)))
            fuel gamma s s' _ _ Hrun); [|done].
  intros s1 s2 stop Hle Hstep.
  destruct (train_step_inv _ _ _ _ Hstep) as (act & a1 & r & _ & _ & Hmem & _).
  etrans; [done|]. unfold size, NpState in *. rewrite Hmem.
  apply len_append_mono.
Qed.

Lemma train_episode_no_optimize (fuel : nat) (gamma : F) s s' :
  train_episode fuel gamma s = Ok (Some s') →
  (_available (replay (agent s)) = true → BATCH_SIZE < size (replay (agent s))) →
  size (replay (agent s')) ≤ BATCH_SIZE →
  losses s' = losses s ∧
  reward_sum (locals s') = reward_sum (locals s) ∧
  q_mean (locals s') = q_mean (locals s) ∧
  target_mean (locals s') = target_mean (locals s).
Proof.
  revert s. induction fuel as [|fuel IH]; intros s Hrun Hlatch Hsize; [done|].
  cbn [train_episode] in Hrun.
  case_bind Hrun as [s1 stop] eqn Hstep.
  destruct stop.
  - injection Hrun as <-.
    destruct (train_step_no_optimize _ _ _ _ Hstep Hlatch Hsize)
      as (? & ? & ? & ? & _). done.
  - pose proof (train_episode_grows _ _ _ _ Hrun) as Hgrow.
    destruct (train_step_no_optimize _ _ _ _ Hstep Hlatch) as (Hl & Hr & Hq & Ht & Hoff);
      [lia|].
    destruct (IH s1 Hrun) as (Hl' & Hr' & Hq' & Ht'); [by rewrite Hoff|done|].
    split_and!; congruence.
Qed.
End NoOptimize.

Section NoOptimize64.
Variable libm_exp : spec_float → spec_float.
#[local] Instance binary64 : Num spec_float := Binary64 libm_exp.

Context {Rng G Screen Frame T OptState : Type}.
Context `{Random Rng spec_float} `{Gym G Screen spec_float} `{Vision Screen Frame}.
Context `{Inhabited T} `{Torch T spec_float Frame OptState}.
Implicit Types (a : Agent spec_float Rng G Frame T OptState).

(** X23. An episode that ends with at most [BATCH_SIZE] transitions in
    the memory has made no optimisation step: in binary64 arithmetic
    the loss printed for it is NaN, the mean of no losses, and the
    reward sum, Q and T printed are the values that [train] had before
    the episode (0 in the first episodes). *)
Theorem no_optimize_prints_nan (fuel : nat) (gamma : spec_float) a
    (l : Locals spec_float) a' l' line :
  replay_ok a →
  train_iteration fuel gamma a l = Ok (Some (a', l', line)) →
  size (replay a') ≤ BATCH_SIZE →
  log_loss line = S754_nan ∧
  log_reward_sum line = reward_sum l ∧
  log_q line = q_mean l ∧
  log_target line = target_mean l.
Proof.
  intros [_ Hlatch] Hrun Hsize. unfold train_iteration in Hrun.
  case_bind Hrun as [st a0] eqn Hinit.
  destruct (get_initial_states_frame _ _ _ Hinit) as (e & b & ->).
  case_bind Hrun as r eqn Hepisode. destruct r as [s'|]; [|done].
  injection Hrun as <- <- <-.
  cbn [replay set_play_steps] in Hsize.
  destruct (train_episode_no_optimize _ _ _ _ Hepisode Hlatch Hsize)
    as (Hl & Hr & Hq & Ht).
  cbn [log_loss log_reward_sum log_q log_target].
  rewrite Hl, Hr, Hq, Ht. by split_and!.
Qed.
End NoOptimize64.

(** ** The replay memory during training *)

Section MemoryRun.
Context {F Rng G Screen Frame T OptState : Type}.
Context `{Num F} `{Random Rng F} `{Gym G Screen F} `{Vision Screen Frame}.
Context `{Inhabited T} `{Torch T F Frame OptState}.
Implicit Types (a : Agent F Rng G Frame T OptState).
Implicit Types (s : Loop F Rng G Frame T OptState).

(** one append to a deque within its bound *)
Lemma len_append_exact {A} (d : deque A) (x : A) :
  len d ≤ maxlen d → len (deque_append d x) = (len d + 1) `min` maxlen d.
Proof.
  unfold len, deque_append. cbn [items maxlen]. intros Hle.
  rewrite length_app. cbn [length].
  destruct (decide _); rewrite ?length_drop, ?length_app; cbn [length]; lia.
Qed.

(** what one pass through the body of the outer loop keeps *)
Lemma train_iteration_memory (fuel : nat) (gamma : F) a (l : Locals F) a' l' line :
  replay_ok a →
  train_iteration fuel gamma a l = Ok (Some (a', l', line)) →
  replay_ok a' ∧
  action_repeat a' = action_repeat a ∧
  frame_skipping a' = frame_skipping a ∧
  maxlen (memory (replay a')) = maxlen (memory (replay a)).
Proof.
  intros Hreplay Hrun.
  destruct (train_iteration_inv _ _ _ _ _ _ _ Hrun)
    as (st & a0 & s' & Hinit & Hepisode & -> & _).
  pose proof (get_initial_states_loop_ok a st a0 l Hreplay Hinit) as Hok.
  destruct (get_initial_states_frame _ _ _ Hinit) as (e & b & ->).
  destruct (train_episode_keeps _ _ _ _ Hok Hepisode) as ((Hrep & _) & Hf & Ha & _).
  assert (maxlen (memory (replay (agent s'))) = maxlen (memory (replay a)))
    as Hmax.
  { refine (train_episode_ind
              (λ s1 : Loop F Rng G Frame T OptState,
                 maxlen (memory (replay (agent s1))) = maxlen (memory (replay a)))
              fuel gamma _ s' _ _ Hepisode); [|done].
    intros s1 s2 stop Hm Hstep.
    destruct (train_step_inv _ _ _ _ Hstep) as (act & a1 & r & _ & _ & Hmem & _).
    unfold NpState in *. by rewrite Hmem. }
  unfold replay_ok in *.
  cbn [agent action_repeat frame_skipping replay set_play_steps
         set_state_buffer set_env] in *.
  split_and!; [apply Hrep|apply Hrep|done|done|done].
Qed.

(** X24. The replay memory stays well formed through training: after
    any number of episodes every stored transition holds a state and a
    next state of [action_repeat] frames and one reward, the
    availability latch is set only if the memory holds more than
    [BATCH_SIZE] transitions, and [action_repeat], [frame_skipping]
    and the capacity of the memory are as before. *)
Theorem train_keeps_memory_shaped (n fuel : nat) (gamma : F) a (l : Locals F)
    a' l' (lines : list (LogLine F)) :
  replay_ok a →
  train_loop n fuel gamma a l = Ok (Some (a', l', lines)) →
  Forall (shaped (action_repeat a)) (items (memory (replay a'))) ∧
  (_available (replay a') = true → BATCH_SIZE < size (replay a')) ∧
  action_repeat a' = action_repeat a ∧
  frame_skipping a' = frame_skipping a ∧
  maxlen (memory (replay a')) = maxlen (memory (replay a)).
Proof.
  revert a l a' l' lines.
  induction n as [|n IH]; intros a l a' l' lines Hreplay Hrun.
  { cbn [train_loop] in Hrun. injection Hrun as <- <- <-.
    destruct Hreplay. by split_and!. }
  cbn [train_loop] in Hrun.
  case_bind Hrun as r eqn Hiter. destruct r as [[[a1 l1] line]|]; [|done].
  case_bind Hrun as r eqn Hrest. destruct r as [[[a2 l2] rest]|]; [|done].
  injection Hrun as <- <- <-.
  destruct (train_iteration_memory _ _ _ _ _ _ _ Hreplay Hiter)
    as (Hreplay1 & Ha1 & Hf1 & Hm1).
  destruct (IH _ _ _ _ _ Hreplay1 Hrest) as (Hshape & Hlatch & Ha2 & Hf2 & Hm2).
  rewrite Ha1 in Hshape. split_and!; [done|done|congruence..].
Qed.

(** the transitions stored during an episode: one per pass *)
Lemma train_episode_puts (fuel : nat) (gamma : F) s s' :
  train_episode fuel gamma s = Ok (Some s') →
  len (memory (replay (agent s))) ≤ maxlen (memory (replay (agent s))) →
  maxlen (memory (replay (agent s'))) = maxlen (memory (replay (agent s))) ∧
  Z.of_nat (size (replay (agent s')))
  = ((Z.of_nat (size (replay (agent s))) + (play_steps s' - play_steps s) + 1)
       `min` Z.of_nat (maxlen (memory (replay (agent s)))))%Z.
Proof.
  revert s. induction fuel as [|fuel IH]; intros s Hrun Hle; [done|].
  cbn [train_episode] in Hrun.
  case_bind Hrun as [s1 stop] eqn Hstep.
  destruct (train_step_inv _ _ _ _ Hstep) as (act & a1 & r & _ & _ & Hmem & _).
  destruct (train_step_effect _ _ _ _ Hstep) as (tu & ck & h1 & _ & _ & _ & Hp & _).
  assert (maxlen (memory (replay (agent s1))) = maxlen (memory (replay (agent s))) ∧
          size (replay (agent s1))
          = (size (replay (agent s)) + 1) `min` maxlen (memory (replay (agent s))))
    as [Hmax1 Hsize1].
  { unfold size, NpState in *. rewrite Hmem. cbn [memory put].
    split; [done|]. by apply len_append_exact. }
  destruct stop.
  - injection Hrun as <-. split; [done|]. rewrite Hsize1, Hp. lia.
  - destruct (train_episode_length _ _ _ _ Hrun) as [Hmono _].
    destruct (IH s1 Hrun) as [Hmax2 Hsize2].
    { unfold size in Hsize1. rewrite Hmax1. unfold NpState in *. lia. }
    split; [congruence|]. rewrite Hsize2, Hmax1, Hsize1. lia.
Qed.

(** X25. Every inner step of [train] stores exactly one transition,
    the one that ends the episode included: an episode with printed
    play length [p] adds [p + 1] transitions to the replay memory, so
    after [n] episodes the memory holds the transitions it held before
    plus the sum of [p + 1] over the printed lines, up to its
    capacity. *)
Theorem train_stores_one_per_step (n fuel : nat) (gamma : F) a (l : Locals F)
    a' l' (lines : list (LogLine F)) :
  len (memory (replay a)) ≤ maxlen (memory (replay a)) →
  train_loop n fuel gamma a l = Ok (Some (a', l', lines)) →
  Z.of_nat (size (replay a'))
  = ((Z.of_nat (size (replay a))
      + foldr Z.add 0 ((λ line, log_play line + 1) <$> lines))
       `min` Z.of_nat (maxlen (memory (replay a))))%Z.
Proof.
  intros Hle Hrun.
  enough (Z.of_nat (size (replay a'))
          = ((Z.of_nat (size (replay a))
              + foldr Z.add 0 ((λ line, log_play line + 1) <$> lines))
               `min` Z.of_nat (maxlen (memory (replay a))))%Z ∧
          (0 ≤ foldr Z.add 0 ((λ line, log_play line + 1) <$> lines))%Z)
    as [? _]; [done|].
  revert a l a' l' lines Hle Hrun.
  induction n as [|n IH]; intros a l a' l' lines Hle Hrun.
  { cbn [train_loop] in Hrun. injection Hrun as <- <- <-.
    cbn [fmap list_fmap foldr]. unfold size. lia. }
  cbn [train_loop] in Hrun.
  case_bind Hrun as r eqn Hiter. destruct r as [[[a1 l1] line]|]; [|done].
  case_bind Hrun as r eqn Hrest. destruct r as [[[a2 l2] rest]|]; [|done].
  injection Hrun as <- <- <-.
  destruct (train_iteration_steps _ _ _ _ _ _ _ Hiter) as (Hplay & _).
  destruct (train_iteration_inv _ _ _ _ _ _ _ Hiter)
    as (st & a0 & s' & Hinit & Hepisode & -> & _ & _ & Hlp & _).
  destruct (get_initial_states_frame _ _ _ Hinit) as (e & b & ->).
  destruct (train_episode_puts _ _ _ _ Hepisode) as [Hmax1 Hsize1]; [done|].
  cbn [agent replay play_steps set_state_buffer set_env set_play_steps] in *.
  edestruct IH as [Hsize2 Hpos]; [|exact Hrest|].
  { cbn [replay set_play_steps]. unfold size in Hsize1. rewrite Hmax1. lia. }
  cbn [replay set_play_steps] in Hsize2.
  rewrite fmap_cons. cbn [foldr]. rewrite Hsize2, Hmax1, Hsize1, Hlp. lia.
Qed.
End MemoryRun.

(** ** The further properties on the small instances *)


(** X2: two episodes of three inner steps each. *)
Lemma train_step_accounting_single_step :
  ∃ a' l' lines,
    train_loop 2 5 Toy.gamma (@Toy.single_step_agent spec_float _) train_locals
    = Ok (Some (a', l', lines)) ∧
    length lines = 2 ∧
    step a'
    = (step (@Toy.single_step_agent spec_float _)
       + foldr Z.add 0 (log_play <$> lines))%Z.
Proof.
  assert (match train_loop 2 5 Toy.gamma (@Toy.single_step_agent spec_float _)
                  train_locals with
          | Ok (Some _) => True
          | _ => False
          end) as Hrun by (vm_compute; exact I).
  destruct (train_loop 2 5 Toy.gamma (@Toy.single_step_agent spec_float _)
              train_locals) as [[[[a' l'] lines]|]|e] eqn:Heq;
    [|destruct Hrun|destruct Hrun].
  exists a', l', lines. split; [reflexivity|].
  destruct (train_step_accounting 2 5 _ _ _ _ _ _ Heq) as (Hlen & _ & Hsum & _).
  split; [exact Hlen|exact Hsum].
Defined.

(** X3: the same two episodes. *)
Lemma play_step_last_five_single_step :
  ∃ a' l' lines,
    train_loop 2 5 Toy.gamma (@Toy.single_step_agent spec_float _) train_locals
    = Ok (Some (a', l', lines)) ∧
    items (_play_steps a') = drop (length lines - 5) (log_play <$> lines).
Proof.
  assert (_play_steps (@Toy.single_step_agent spec_float _) = deque_new 5)
    as Hnew by reflexivity.
  assert (match train_loop 2 5 Toy.gamma (@Toy.single_step_agent spec_float _)
                  train_locals with
          | Ok (Some _) => True
          | _ => False
          end) as Hrun by (vm_compute; exact I).
  destruct (train_loop 2 5 Toy.gamma (@Toy.single_step_agent spec_float _)
              train_locals) as [[[[a' l'] lines]|]|e] eqn:Heq;
    [|destruct Hrun|destruct Hrun].
  exists a', l', lines. split; [reflexivity|].
  exact (proj1 (play_step_last_five 2 5 _ _ _ _ _ _ Hnew Heq)).
Defined.

(** X4: one episode of three inner steps. *)
Lemma log_marks_exact_single_step :
  ∃ a' l' line,
    train_iteration 5 Toy.gamma (@Toy.single_step_agent spec_float _) train_locals
    = Ok (Some (a', l', line)) ∧
    (log_checkpoint line = true → log_target_updated line = true).
Proof.
  assert (match train_iteration 5 Toy.gamma (@Toy.single_step_agent spec_float _)
                  train_locals with
          | Ok (Some _) => True
          | _ => False
          end) as Hrun by (vm_compute; exact I).
  destruct (train_iteration 5 Toy.gamma (@Toy.single_step_agent spec_float _)
              train_locals) as [[[[a' l'] line]|]|e] eqn:Heq;
    [|destruct Hrun|destruct Hrun].
  exists a', l', line. split; [reflexivity|].
  exact (proj2 (proj2 (log_marks_exact 5 _ _ _ _ _ _ Heq))).
Defined.


(** X6: the first inner step of an episode. *)
Lemma target_synchronised_single_step :
  ∃ s' stop,
    train_step Toy.gamma Toy.single_step_start = Ok (s', stop) ∧
    nets_ok (agent Toy.single_step_start) ∧
    nets_ok (agent s').
Proof.
  assert (nets_ok (agent Toy.single_step_start)) as Hnets.
  { unfold nets_ok. split_and!; apply (bool_decide_unpack _); vm_compute; exact I. }
  assert (match train_step Toy.gamma Toy.single_step_start with
          | Ok _ => True
          | Raise _ => False
          end) as Hrun by (vm_compute; exact I).
  destruct (train_step Toy.gamma Toy.single_step_start) as [[s' stop]|e] eqn:Heq;
    [|destruct Hrun].
  exists s', stop. split; [reflexivity|]. split; [exact Hnets|].
  exact (proj1 (target_synchronised _ _ _ _ Hnets Heq)).
Defined.

(** X7: one episode. *)
Lemma target_kept_without_mark_single_step :
  ∃ a' l' line,
    train_iteration 5 Toy.gamma (@Toy.single_step_agent spec_float _) train_locals
    = Ok (Some (a', l', line)) ∧
    nets_ok (@Toy.single_step_agent spec_float _) ∧
    nets_ok a'.
Proof.
  assert (nets_ok (@Toy.single_step_agent spec_float _)) as Hnets.
  { unfold nets_ok. split_and!; apply (bool_decide_unpack _); vm_compute; exact I. }
  assert (match train_iteration 5 Toy.gamma (@Toy.single_step_agent spec_float _)
                  train_locals with
          | Ok (Some _) => True
          | _ => False
          end) as Hrun by (vm_compute; exact I).
  destruct (train_iteration 5 Toy.gamma (@Toy.single_step_agent spec_float _)
              train_locals) as [[[[a' l'] line]|]|e] eqn:Heq;
    [|destruct Hrun|destruct Hrun].
  exists a', l', line. split; [reflexivity|]. split; [exact Hnets|].
  exact (proj1 (target_kept_without_mark 5 _ _ _ _ _ _ Hnets Heq)).
Defined.


(** X10: an agent built with [action_repeat=0]. *)
Lemma zero_action_repeat_raises_toy :
  action_repeat Toy.no_frame_agent = 0 ∧
  train 1 1 Toy.gamma Toy.no_frame_agent = Raise ValueError ∧
  play 1 Toy.no_frame_agent = Raise ValueError.
Proof.
  assert (action_repeat Toy.no_frame_agent = 0) as Har by reflexivity.
  split; [exact Har|].
  exact (proj2 (zero_action_repeat_raises 0 1 Toy.gamma Toy.no_frame_agent Har)).
Defined.



(** X13: a memory of three transitions, sampled whole. *)
Lemma sample_is_part_of_memory_of_three :
  let r := put_all (ReplayMemory_init 3) (Toy.nth_put <$> [1; 2; 3]) in
  ∃ ts g',
    sample r 3 0 = Ok (columns ts, g') ∧
    ts ≡ₚ items (memory r).
Proof.
  intros r.
  assert (1 ≤ 3 ≤ size r) as Hk by (vm_compute; lia).
  destruct (sample_is_part_of_memory r 3 0 Hk) as (ts & g' & Hs & _ & _ & Hperm).
  exists ts, g'. split; [exact Hs|]. apply Hperm. reflexivity.
Defined.

(** X14: two transitions in a memory of capacity 3. *)
Lemma put_keeps_all_below_capacity_3 :
  length (Toy.nth_put <$> [1; 2]) ≤ 3 ∧
  items (memory (put_all (ReplayMemory_init 3) (Toy.nth_put <$> [1; 2])))
  = stored <$> (Toy.nth_put <$> [1; 2]).
Proof.
  assert (length (Toy.nth_put <$> [1; 2]) ≤ 3) as Hlen by (simpl; lia).
  split; [exact Hlen|].
  exact (proj1 (put_keeps_all_below_capacity 3 (Toy.nth_put <$> [1; 2]) Hlen)).
Defined.

(** X15: the first two inner steps of an episode. *)
Lemma transitions_chain_single_step :
  ∃ s1 s2 stop t1 t2,
    train_step Toy.gamma Toy.single_step_start = Ok (s1, false) ∧
    train_step Toy.gamma s1 = Ok (s2, stop) ∧
    last (items (memory (replay (agent s1)))) = Some t1 ∧
    last (items (memory (replay (agent s2)))) = Some t2 ∧
    state t2 = next_state t1.
Proof.
  assert (0 < maxlen (memory (replay (agent Toy.single_step_start)))) as Hmax.
  { change (0 < DEFAULT_CAPACITY). unfold DEFAULT_CAPACITY. lia. }
  assert (match train_step Toy.gamma Toy.single_step_start with
          | Ok (s1, false) =>
            match train_step Toy.gamma s1 with
            | Ok _ => True
            | Raise _ => False
            end
          | _ => False
          end) as Hrun by (vm_compute; exact I).
  destruct (train_step Toy.gamma Toy.single_step_start) as [[s1 [|]]|e] eqn:Heq1;
    [destruct Hrun| |destruct Hrun].
  destruct (train_step Toy.gamma s1) as [[s2 stop]|e] eqn:Heq2; [|destruct Hrun].
  destruct (transitions_chain Toy.gamma _ _ _ _ Hmax Heq1 Heq2)
    as (t1 & t2 & Hl1 & Hl2 & _ & Hn1 & Hs2 & _).
  exists s1, s2, stop, t1, t2.
  split; [reflexivity|]. split; [exact Heq2|].
  split; [exact Hl1|]. split; [exact Hl2|]. by rewrite Hs2, Hn1.
Defined.

(** X16: step 0, average play lengths 0 and 1. *)
Lemma epsilon_envelope_start :
  (EPSILON_END < epsilon_at 0 0)%R ∧ (epsilon_at 0 1 <= epsilon_at 0 0)%R.
Proof.
  assert (0 ≤ 0)%Z as Hn by lia.
  assert (0 <= 0)%R as Hp by lra.
  assert (0 <= 1)%R as Hpp by lra.
  destruct (epsilon_envelope 0 0 1 Hn Hp Hpp) as (_ & _ & Hend & Hmono).
  split; [exact Hend|exact Hmono].
Defined.

(** X17: one recorded episode of three steps. *)
Lemma short_episodes_explore_toy :
  (1 < epsilon_at (step Toy.short_episode_agent)
         (play_step Toy.short_episode_agent))%R.
Proof.
  assert (items (_play_steps Toy.short_episode_agent) ≠ []) as Hne
    by discriminate.
  assert (0 <= play_step Toy.short_episode_agent <= 4)%R as Hp.
  { unfold play_step, np_mean, mean. simpl.
    change (IZR (Z.of_nat 1)) with 1%R. lra. }
  assert ((random (rng Toy.short_episode_agent)).1 <= 1)%R as Hu.
  { simpl. lra. }
  exact (proj1 (short_episodes_explore Toy.short_episode_agent [] Hne Hp Hu)).
Defined.

(** X18: the checkpoint of step 5000. *)
Lemma checkpoint_name_round_trip_5000 :
  (0 ≤ 5000)%Z ∧
  numbered (checkpoint_path 5000) = inr (5000%Z, checkpoint_path 5000).
Proof.
  assert (0 ≤ 5000)%Z as Hn by lia.
  split; [exact Hn|].
  exact (proj2 (proj2 (checkpoint_name_round_trip 5000 Hn))).
Defined.

(** X19: three checkpoints, listed out of order. *)
Lemma load_latest_takes_largest_listing :
  ∃ l1 x l2 n,
    Toy.listing = l1 ++ x :: l2 ∧
    numbered x = inr (n, x) ∧
    load_latest_checkpoint Toy.listing ∅ (@Toy.one_shot_agent spec_float _)
    = load_checkpoint ∅ (@Toy.one_shot_agent spec_float _) x.
Proof.
  assert (Toy.listing ≠ []) as Hne by discriminate.
  assert (Forall (λ x, re_search x ≠ None) Toy.listing) as Hall
    by (repeat constructor; vm_compute; discriminate).
  destruct (load_latest_takes_largest Toy.listing ∅
              (@Toy.one_shot_agent spec_float _) Hne Hall)
    as (l1 & x & l2 & n & Hfiles & Hnum & _ & _ & Hload).
  exists l1, x, l2, n. split; [exact Hfiles|]. split; [exact Hnum|exact Hload].
Defined.



(** X22: the network with the values 0 and 1 for the two actions. *)
Lemma greedy_action_is_best_toy :
  greedy_action (@Toy.one_shot_agent R _) [] = Ok 1 ∧
  ∃ m, forward (values (heap (@Toy.one_shot_agent R _))
                  (dqn (@Toy.one_shot_agent R _))) [[]] 0 !! 1 = Some m ∧
       is_max m (forward (values (heap (@Toy.one_shot_agent R _))
                            (dqn (@Toy.one_shot_agent R _))) [[]] 0).
Proof.
  assert (greedy_action (@Toy.one_shot_agent R _) [] = Ok 1) as Hact.
  { unfold greedy_action, row_argmax. cbn [forward Toy.net argmax_from].
    change (fgt (of_int 1) (of_int 0)) with (Rgtb 1 0).
    unfold Rgtb. destruct (Rgt_dec 1 0) as [|Hn]; [done|]. exfalso. apply Hn. lra. }
  split; [exact Hact|].
  exact (greedy_action_is_best (@Toy.one_shot_agent R _) [] 1 Hact).
Defined.

(** X23: the first episode of the new agent. *)
Lemma no_optimize_prints_nan_one_shot :
  ∃ a' l' line,
    train_iteration 1 Toy.gamma (@Toy.one_shot_agent spec_float _) train_locals
    = Ok (Some (a', l', line)) ∧
    log_loss line = S754_nan.
Proof.
  assert (replay_ok (@Toy.one_shot_agent spec_float _)) as Hreplay
    by (split; [vm_compute; constructor|vm_compute; discriminate]).
  assert (match train_iteration 1 Toy.gamma (@Toy.one_shot_agent spec_float _)
                  train_locals with
          | Ok (Some (a', _, _)) => size (replay a') ≤ BATCH_SIZE
          | _ => False
          end) as Hrun by (vm_compute; lia).
  destruct (train_iteration 1 Toy.gamma (@Toy.one_shot_agent spec_float _)
              train_locals) as [[[[a' l'] line]|]|e] eqn:Heq;
    [|destruct Hrun|destruct Hrun].
  exists a', l', line. split; [reflexivity|].
  exact (proj1 (no_optimize_prints_nan Toy.exp_at_zero 1 Toy.gamma _ _ _ _ _
                  Hreplay Heq Hrun)).
Defined.

(** X24: two episodes. *)
Lemma train_keeps_memory_shaped_single_step :
  ∃ a' l' lines,
    train_loop 2 5 Toy.gamma (@Toy.single_step_agent spec_float _) train_locals
    = Ok (Some (a', l', lines)) ∧
    Forall (shaped (action_repeat (@Toy.single_step_agent spec_float _)))
      (items (memory (replay a'))).
Proof.
  assert (replay_ok (@Toy.single_step_agent spec_float _)) as Hreplay
    by (split; [vm_compute; constructor|vm_compute; discriminate]).
  assert (match train_loop 2 5 Toy.gamma (@Toy.single_step_agent spec_float _)
                  train_locals with
          | Ok (Some _) => True
          | _ => False
          end) as Hrun by (vm_compute; exact I).
  destruct (train_loop 2 5 Toy.gamma (@Toy.single_step_agent spec_float _)
              train_locals) as [[[[a' l'] lines]|]|e] eqn:Heq;
    [|destruct Hrun|destruct Hrun].
  exists a', l', lines. split; [reflexivity|].
  exact (proj1 (train_keeps_memory_shaped 2 5 _ _ _ _ _ _ Hreplay Heq)).
Defined.

(** X25: two episodes of three inner steps each. *)
Lemma train_stores_one_per_step_single_step :
  ∃ a' l' lines,
    train_loop 2 5 Toy.gamma (@Toy.single_step_agent spec_float _) train_locals
    = Ok (Some (a', l', lines)) ∧
    Z.of_nat (size (replay a'))
    = ((Z.of_nat (size (replay (@Toy.single_step_agent spec_float _)))
        + foldr Z.add 0 ((λ line, log_play line + 1) <$> lines))
         `min` Z.of_nat (maxlen (memory (replay (@Toy.single_step_agent spec_float _)))))%Z.
Proof.
  assert (len (memory (replay (@Toy.single_step_agent spec_float _)))
          ≤ maxlen (memory (replay (@Toy.single_step_agent spec_float _))))
    as Hle.
  { change (0 ≤ DEFAULT_CAPACITY). lia. }
  assert (match train_loop 2 5 Toy.gamma (@Toy.single_step_agent spec_float _)
                  train_locals with
          | Ok (Some _) => True
          | _ => False
          end) as Hrun by (vm_compute; exact I).
  destruct (train_loop 2 5 Toy.gamma (@Toy.single_step_agent spec_float _)
              train_locals) as [[[[a' l'] lines]|]|e] eqn:Heq;
    [|destruct Hrun|destruct Hrun].
  exists a', l', lines. split; [reflexivity|].
  exact (train_stores_one_per_step 2 5 _ _ _ _ _ _ Hle Heq).
Defined.
